(** * Typed routes: a model of [src/index.ts]

    The library assembles a URL path template out of literal segments and
    named parameters.  A route value carries the template, a flat filler
    [fillAll] and a curried filler [filled].  This file embeds the run-time
    part of the library (the type-level machinery is erased by the
    compiler) and states its properties.  Route values are first modelled as
    immutable records of functions; a second model keeps the route objects
    in a store, with closures that capture references, and is shown to agree
    with the first. *)

From Stdlib Require Import ZArith List Bool Lia Wf_nat.
From Stdlib Require Import Strings.String Strings.Ascii Numbers.DecimalString.
Import ListNotations.

Open Scope list_scope.
Open Scope string_scope.

(** ** JavaScript values handed to the fillers

    The fillers take arguments of type [any].  The code only ever compares an
    argument with [undefined] and interpolates it in a template literal, so
    an argument is modelled by what these two observations can see.
    [VNumber z] stands for the integer [z] as a number, for [z] between
    -2^53 and 2^53, where every integer is a number and is printed in
    decimal; [VObject text] stands for any other value whose string
    conversion succeeds and yields [text].  A value whose conversion throws
    (a symbol) is not modelled. *)

Inductive JsValue : Type :=
| VUndefined
| VNull
| VBoolean (b : bool)
| VNumber (z : Z)
| VString (s : string)
| VObject (text : string).

(** [arg !== undefined] *)
Definition isDefined (arg : JsValue) : bool :=
  match arg with
  | VUndefined => false
  | _ => true
  end.

(** The string conversion performed by a template literal, [`${arg}`]. *)
Definition ToString (arg : JsValue) : string :=
  match arg with
  | VUndefined => "undefined"
  | VNull => "null"
  | VBoolean true => "true"
  | VBoolean false => "false"
  | VNumber z => NilZero.string_of_int (Z.to_int z)
  | VString s => s
  | VObject text => text
  end.

(** [type FilledType = string | ((arg: any) => FilledType)] *)
Inductive FilledType : Type :=
| FStr (s : string)
| FFun (f : JsValue -> FilledType).

(** [interface ITypedRoute].  [parameters] is always [undefined] at run
    time.  [fillAll] is variadic: it receives the list of its actual
    arguments. *)
Record ITypedRoute : Type := mkRoute {
  template : string;
  parameters : JsValue;
  fillAll : list JsValue -> string;
  filled : FilledType
}.

(** Calling a [FilledType] value with one argument.  Calling a string is a
    [TypeError], modelled by [None]. *)
Definition call (f : FilledType) (arg : JsValue) : option FilledType :=
  match f with
  | FStr _ => None
  | FFun g => Some (g arg)
  end.

(** The chain of calls [f(a1)(a2)...(an)]. *)
Fixpoint calls (f : FilledType) (args : list JsValue) : option FilledType :=
  match args with
  | [] => Some f
  | a :: rest =>
      match call f a with
      | Some f' => calls f' rest
      | None => None
      end
  end.

(** The first actual argument of a variadic call ([undefined] when the call
    supplies none) and the rest parameter. *)
Definition firstArg (args : list JsValue) : JsValue := hd VUndefined args.
Definition restArgs (args : list JsValue) : list JsValue := tl args.

(** A host for the closed examples at the end of the file: one whose
    functions all print as the same text.  No result depends on the choice. *)
Definition hostText (f : JsValue -> FilledType) : string := "function".

Section Runtime.

(** The text that the host's [Function.prototype.toString] gives for a
    function value.  It is the source text of the arrow function after
    compilation, which the library does not fix; every result below holds
    whatever this text is. *)
Variable functionToString : (JsValue -> FilledType) -> string.

(** [`${x}`] for [x : FilledType]. *)
Definition filledToString (x : FilledType) : string :=
  match x with
  | FStr s => s
  | FFun g => functionToString g
  end.

(** [createRoute()] *)
Definition createRoute : ITypedRoute :=
  {| template := "";
     parameters := VUndefined;
     fillAll := fun _ => "";
     filled := FStr "" |}.

(** [makeFilledCurry(routeArgs)]: defers filling in the parameter values. *)
Fixpoint makeFilledCurry (routeArgs : FilledType) : FilledType :=
  match routeArgs with
  | FStr s =>
      FFun (fun arg =>
        if isDefined arg
        then FStr (s ++ "/" ++ ToString arg)
        else FStr s)
  | FFun f =>
      FFun (fun arg =>
        if isDefined arg
        then let nestedArgs := f arg in makeFilledCurry nestedArgs
        else FFun f)
  end.

(** [addSegment(segment)(route)].  The [typeof route.filled === 'string']
    test chooses between the concatenated string and a function which
    interpolates the result of the inner call, whatever that result is.
    The closures read [route.fillAll] and [route.filled] when they are
    called; no operation assigns to a route object, so this is the value
    read here. *)
Definition addSegment (segment : string) (route : ITypedRoute) : ITypedRoute :=
  {| template := template route ++ "/" ++ segment;
     parameters := VUndefined;
     fillAll := fun rest => fillAll route rest ++ "/" ++ segment;
     filled :=
       match filled route with
       | FStr s => FStr (s ++ "/" ++ segment)
       | FFun f => FFun (fun arg => FStr (filledToString (f arg) ++ "/" ++ segment))
       end |}.

(** [addParameter(name)(route)].  [name] is a property key, interpolated in
    the template; it is modelled by its text.  The first actual argument of
    the new [fillAll] is the parameter's value, the others go to the
    previous [fillAll]. *)
Definition addParameter (name : string) (route : ITypedRoute) : ITypedRoute :=
  {| template := template route ++ "/:" ++ name;
     parameters := VUndefined;
     fillAll := fun args =>
       let param := firstArg args in
       let params := restArgs args in
       fillAll route params ++ "/" ++ ToString param;
     filled := makeFilledCurry (filled route) |}.

(** [addOptionalParameter(name)(route)] *)
Definition addOptionalParameter (name : string) (route : ITypedRoute) : ITypedRoute :=
  {| template := template route ++ "/:" ++ name ++ "?";
     parameters := VUndefined;
     fillAll := fun args =>
       let param := firstArg args in
       let params := restArgs args in
       if isDefined param
       then fillAll route params ++ "/" ++ ToString param
       else fillAll route params;
     filled := makeFilledCurry (filled route) |}.

(** ** Sequences of append operations

    A route is produced from the empty route by a sequence of the three
    append operations, applied in order. *)

Inductive RouteStep : Type :=
| SegmentStep (segment : string)
| ParameterStep (name : string)
| OptionalParameterStep (name : string).

Definition applyStep (step : RouteStep) (route : ITypedRoute) : ITypedRoute :=
  match step with
  | SegmentStep segment => addSegment segment route
  | ParameterStep name => addParameter name route
  | OptionalParameterStep name => addOptionalParameter name route
  end.

Definition compose (steps : list RouteStep) (route : ITypedRoute) : ITypedRoute :=
  fold_left (fun r step => applyStep step r) steps route.

(** What one append operation adds to the template. *)
Definition stepTemplate (step : RouteStep) : string :=
  match step with
  | SegmentStep segment => "/" ++ segment
  | ParameterStep name => "/:" ++ name
  | OptionalParameterStep name => "/:" ++ name ++ "?"
  end.

Definition joinAll (pieces : list string) : string :=
  fold_right append "" pieces.

Definition isParameter (step : RouteStep) : bool :=
  match step with
  | SegmentStep _ => false
  | ParameterStep _ | OptionalParameterStep _ => true
  end.

Definition countParameters (steps : list RouteStep) : nat :=
  List.length (filter isParameter steps).

(** ** Curried steps

    [CurrySteps n f]: whatever defined values are supplied, [f] must be
    called exactly [n] times before a plain string comes out. *)

Inductive CurrySteps : nat -> FilledType -> Prop :=
| CurrySteps_string (s : string) : CurrySteps 0 (FStr s)
| CurrySteps_function (n : nat) (f : JsValue -> FilledType) :
    (forall arg, isDefined arg = true -> CurrySteps n (f arg)) ->
    CurrySteps (S n) (FFun f).

(** The number of calls with the value [arg] until a string comes out. *)
Fixpoint stepsWith (arg : JsValue) (f : FilledType) : nat :=
  match f with
  | FStr _ => 0
  | FFun g => S (stepsWith arg (g arg))
  end.

(** ** The builder

    [class TypedRouteBuilder] holds one route in its private field.  Every
    chaining method reassigns the field and returns [this]; a method is
    modelled as the function from the builder's state before the call to
    its state after it. *)

Record TypedRouteBuilder : Type := mkBuilder {
  _typedRoute : ITypedRoute
}.

(** [new TypedRouteBuilder(typedRoute?)]: [typedRoute || createRoute()]; an
    object is always truthy, so only a missing argument takes the default. *)
Definition newTypedRouteBuilder (typedRoute : option ITypedRoute) : TypedRouteBuilder :=
  {| _typedRoute := match typedRoute with
                    | Some route => route
                    | None => createRoute
                    end |}.

Definition segment (segment : string) (this : TypedRouteBuilder) : TypedRouteBuilder :=
  {| _typedRoute := addSegment segment (_typedRoute this) |}.

Definition parameter (name : string) (this : TypedRouteBuilder) : TypedRouteBuilder :=
  {| _typedRoute := addParameter name (_typedRoute this) |}.

Definition optionalParameter (name : string) (this : TypedRouteBuilder) : TypedRouteBuilder :=
  {| _typedRoute := addOptionalParameter name (_typedRoute this) |}.

Definition build (this : TypedRouteBuilder) : ITypedRoute := _typedRoute this.

(** The method call that corresponds to an append operation, and a chain of
    such calls. *)
Definition builderCall (step : RouteStep) (this : TypedRouteBuilder) : TypedRouteBuilder :=
  match step with
  | SegmentStep s => segment s this
  | ParameterStep name => parameter name this
  | OptionalParameterStep name => optionalParameter name this
  end.

Definition chain (steps : list RouteStep) (this : TypedRouteBuilder) : TypedRouteBuilder :=
  fold_left (fun b step => builderCall step b) steps this.

(** ** Route objects in a store

    A route value is a JavaScript object, passed by reference.  To state that
    an operation leaves its input object alone, objects live in a store:
    a reference is an index, and an object literal allocates the next one.
    An append operation reads the fields of the object its argument refers
    to and allocates the result; its body contains no assignment. *)

Definition Ref : Type := nat.
Definition Store : Type := list ITypedRoute.

Definition deref (store : Store) (r : Ref) : option ITypedRoute := nth_error store r.

Definition alloc (store : Store) (obj : ITypedRoute) : Ref * Store :=
  (List.length store, (store ++ [obj])%list).

(** An append operation applied to a reference.  [None]: the reference is
    dangling, which no JavaScript program can produce. *)
Definition applyStepRef (step : RouteStep) (route : Ref) (store : Store)
  : option (Ref * Store) :=
  match deref store route with
  | Some obj => Some (alloc store (applyStep step obj))
  | None => None
  end.

(** The number of curried steps the code produces for a sequence of
    operations: a parameter wraps the chain in one more call, a segment
    added to a pending chain answers with a string after one call. *)
Definition curryDepthAfter (depth : nat) (step : RouteStep) : nat :=
  match step with
  | SegmentStep _ => Nat.min depth 1
  | ParameterStep _ | OptionalParameterStep _ => S depth
  end.

Definition curryDepth (steps : list RouteStep) : nat :=
  fold_left curryDepthAfter steps 0.

(** [segmentsEarly pending steps]: every segment of [steps] is added while
    at most one parameter is pending, [pending] of them being so at the
    start. *)
Fixpoint segmentsEarly (pending : nat) (steps : list RouteStep) : bool :=
  match steps with
  | [] => true
  | SegmentStep _ :: rest => (pending <=? 1)%nat && segmentsEarly pending rest
  | _ :: rest => segmentsEarly (S pending) rest
  end.

(** What one value contributes to the path built by the curried filler:
    [/value], and nothing for [undefined]. *)
Definition curriedPiece (arg : JsValue) : string :=
  if isDefined arg then "/" ++ ToString arg else "".

(** [Pending n s f]: [f] waits for [n] calls, whatever the values, and then
    returns [s] followed by the pieces of the values it was given. *)
Fixpoint Pending (n : nat) (s : string) (f : FilledType) : Prop :=
  match n with
  | 0 => f = FStr s
  | S m => exists g, f = FFun g /\ forall arg, Pending m (s ++ curriedPiece arg) (g arg)
  end.

(** The path that a sequence of operations describes for given parameter
    values, listed in declaration order: [/segment] for a segment, [/value]
    for a required parameter, and [/value] or nothing for an optional one. *)
Fixpoint pathOf (steps : list RouteStep) (values : list JsValue) : string :=
  match steps with
  | [] => ""
  | SegmentStep segment :: rest => ("/" ++ segment) ++ pathOf rest values
  | ParameterStep _ :: rest =>
      ("/" ++ ToString (firstArg values)) ++ pathOf rest (restArgs values)
  | OptionalParameterStep _ :: rest =>
      curriedPiece (firstArg values) ++ pathOf rest (restArgs values)
  end.

(** [Fills n path f]: [f] waits for [n] calls and, given [n] values none of
    which is [undefined], returns the string [path values]. *)
Fixpoint Fills (n : nat) (path : list JsValue -> string) (f : FilledType) : Prop :=
  match n with
  | 0 => f = FStr (path [])
  | S m =>
      exists g, f = FFun g
                /\ forall arg, isDefined arg = true ->
                               Fills m (fun values => path (arg :: values)) (g arg)
  end.

(** [Skips n path f]: given [n] values none of which is [undefined] and
    then [undefined], [f] returns the string [path values]. *)
Fixpoint Skips (n : nat) (path : list JsValue -> string) (f : FilledType) : Prop :=
  match n with
  | 0 => exists g, f = FFun g /\ g VUndefined = FStr (path [])
  | S m =>
      exists g, f = FFun g
                /\ forall arg, isDefined arg = true ->
                               Skips m (fun values => path (arg :: values)) (g arg)
  end.

(** What [fillAll] makes of a missing argument: a required parameter prints
    [/undefined], an optional one nothing. *)
Definition stepWithoutValue (step : RouteStep) : string :=
  match step with
  | SegmentStep segment => "/" ++ segment
  | ParameterStep _ => "/undefined"
  | OptionalParameterStep _ => ""
  end.

(** The placeholder that stands for a parameter in the template. *)
Definition placeholders (steps : list RouteStep) : list JsValue :=
  flat_map (fun step =>
              match step with
              | SegmentStep _ => []
              | ParameterStep name => [VString (":" ++ name)]
              | OptionalParameterStep name => [VString (":" ++ name ++ "?")]
              end) steps.

(** ** Builders in a store

    A builder is an object too: its methods assign to its field and return
    [this].  Beside the route objects the store holds the builders, each
    one the reference its [_typedRoute] field contains. *)

Record Heap : Type := mkHeap {
  routeObjects : Store;
  builderObjects : list Ref
}.

(** [xs[i] = x] on an existing index. *)
Fixpoint assign (xs : list Ref) (i : nat) (x : Ref) : list Ref :=
  match xs, i with
  | [], _ => []
  | _ :: rest, 0 => x :: rest
  | y :: rest, S j => y :: assign rest j x
  end.

(** [new TypedRouteBuilder(typedRoute?)]: the new builder holds the route it
    is given, or a freshly created empty route. *)
Definition newBuilderRef (typedRoute : option Ref) (heap : Heap) : Ref * Heap :=
  match typedRoute with
  | Some route =>
      (List.length (builderObjects heap),
       {| routeObjects := routeObjects heap;
          builderObjects := (builderObjects heap ++ [route])%list |})
  | None =>
      let '(route, routes) := alloc (routeObjects heap) createRoute in
      (List.length (builderObjects heap),
       {| routeObjects := routes;
          builderObjects := (builderObjects heap ++ [route])%list |})
  end.

(** A chaining method: [this._typedRoute = op(this._typedRoute); return this]. *)
Definition builderCallRef (step : RouteStep) (this : Ref) (heap : Heap)
  : option (Ref * Heap) :=
  match nth_error (builderObjects heap) this with
  | Some route =>
      match applyStepRef step route (routeObjects heap) with
      | Some (result, routes) =>
          Some (this, {| routeObjects := routes;
                         builderObjects := assign (builderObjects heap) this result |})
      | None => None
      end
  | None => None
  end.

(** [build()]: the reference the builder holds. *)
Definition buildRef (this : Ref) (heap : Heap) : option Ref :=
  nth_error (builderObjects heap) this.

(** A chain of method calls on one builder: each call is made on the
    builder the previous call returned. *)
Fixpoint chainRef (steps : list RouteStep) (this : Ref) (heap : Heap)
  : option (Ref * Heap) :=
  match steps with
  | [] => Some (this, heap)
  | step :: rest =>
      match builderCallRef step this heap with
      | Some (this', heap') => chainRef rest this' heap'
      | None => None
      end
  end.

(** ** Route objects whose closures capture references

    The functions that an append operation puts into the new route object
    are closures over the variable [route]: they read [route.fillAll] and
    [route.filled] from the object that [route] refers to at the time they
    are called.  To state what an operation does to the object it is given,
    this second model keeps the route objects in a store and represents each
    closure by the arrow function that created it together with what it
    captured. *)

(** The [fillAll] closures, by the line that creates them. *)
Inductive FillAllClosure : Type :=
| FillAllOfCreate                                     (* () => '' *)
| FillAllOfSegment (route : Ref) (segment : string)   (* addSegment *)
| FillAllOfParameter (route : Ref)                    (* addParameter *)
| FillAllOfOptional (route : Ref).                    (* addOptionalParameter *)

(** The [filled] closures: the two arrow functions of [makeFilledCurry], which
    capture the value [routeArgs], and the one of [addSegment], which captures
    [route] and [segment]. *)
Inductive FilledClosure : Type :=
| CurryOfString (routeArgs : string)
| CurryOfFunction (routeArgs : FilledClosure)
| FilledOfSegment (route : Ref) (segment : string).

Inductive FilledValue : Type :=
| FilledString (s : string)
| FilledFunction (fn : FilledClosure).

Record RouteObject : Type := mkRouteObject {
  objTemplate : string;
  objParameters : JsValue;
  objFillAll : FillAllClosure;
  objFilled : FilledValue
}.

Definition ObjectStore : Type := list RouteObject.

(** The text the host prints for a closure. *)
Variable closureToString : FilledClosure -> string.

Definition valueToString (v : FilledValue) : string :=
  match v with
  | FilledString s => s
  | FilledFunction fn => closureToString fn
  end.

(** [makeFilledCurry(routeArgs)]: one of its two arrow functions, closed over
    [routeArgs]. *)
Definition makeFilledCurryObject (routeArgs : FilledValue) : FilledValue :=
  match routeArgs with
  | FilledString s => FilledFunction (CurryOfString s)
  | FilledFunction fn => FilledFunction (CurryOfFunction fn)
  end.

(** The body of a [fillAll] closure called with [args];
    [callRoute route args] is the call [route.fillAll(...args)]. *)
Definition applyFillAll (callRoute : Ref -> list JsValue -> option string)
           (fn : FillAllClosure) (args : list JsValue) : option string :=
  match fn with
  | FillAllOfCreate => Some ""
  | FillAllOfSegment route segment =>
      match callRoute route args with
      | Some path => Some (path ++ "/" ++ segment)
      | None => None
      end
  | FillAllOfParameter route =>
      match callRoute route (restArgs args) with
      | Some path => Some (path ++ "/" ++ ToString (firstArg args))
      | None => None
      end
  | FillAllOfOptional route =>
      if isDefined (firstArg args)
      then match callRoute route (restArgs args) with
           | Some path => Some (path ++ "/" ++ ToString (firstArg args))
           | None => None
           end
      else callRoute route (restArgs args)
  end.

(** [route.fillAll(...args)] in a store.  Each read of a route object uses
    one unit of [fuel]; [None] stands for a dangling reference or for fuel
    that ran out. *)
Fixpoint callRouteFillAll (fuel : nat) (store : ObjectStore) (route : Ref)
         (args : list JsValue) : option string :=
  match fuel with
  | 0 => None
  | S fuel' =>
      match nth_error store route with
      | Some obj => applyFillAll (callRouteFillAll fuel' store) (objFillAll obj) args
      | None => None
      end
  end.

(** The body of a [filled] closure called with [arg];
    [callRoute route arg] is the call [(route.filled)(arg)]. *)
Fixpoint callClosure (callRoute : Ref -> JsValue -> option FilledValue)
         (fn : FilledClosure) (arg : JsValue) : option FilledValue :=
  match fn with
  | CurryOfString routeArgs =>
      Some (if isDefined arg
            then FilledString (routeArgs ++ "/" ++ ToString arg)
            else FilledString routeArgs)
  | CurryOfFunction routeArgs =>
      if isDefined arg
      then match callClosure callRoute routeArgs arg with
           | Some nestedArgs => Some (makeFilledCurryObject nestedArgs)
           | None => None
           end
      else Some (FilledFunction routeArgs)
  | FilledOfSegment route segment =>
      match callRoute route arg with
      | Some nested => Some (FilledString (valueToString nested ++ "/" ++ segment))
      | None => None
      end
  end.

(** [(route.filled)(arg)] in a store; calling a string fails. *)
Fixpoint callRouteFilled (fuel : nat) (store : ObjectStore) (route : Ref)
         (arg : JsValue) : option FilledValue :=
  match fuel with
  | 0 => None
  | S fuel' =>
      match nth_error store route with
      | Some obj =>
          match objFilled obj with
          | FilledFunction fn => callClosure (callRouteFilled fuel' store) fn arg
          | FilledString _ => None
          end
      | None => None
      end
  end.

(** The chain of calls [v(a1)...(an)] in a store. *)
Fixpoint filledCalls (fuel : nat) (store : ObjectStore) (v : FilledValue)
         (args : list JsValue) : option FilledValue :=
  match args with
  | [] => Some v
  | arg :: rest =>
      match v with
      | FilledString _ => None
      | FilledFunction fn =>
          match callClosure (callRouteFilled fuel store) fn arg with
          | Some v' => filledCalls fuel store v' rest
          | None => None
          end
      end
  end.

(** An object literal allocates the next reference. *)
Definition allocObject (store : ObjectStore) (obj : RouteObject) : Ref * ObjectStore :=
  (List.length store, (store ++ [obj])%list).

Definition createRouteObject (store : ObjectStore) : Ref * ObjectStore :=
  allocObject store
    {| objTemplate := "";
       objParameters := VUndefined;
       objFillAll := FillAllOfCreate;
       objFilled := FilledString "" |}.

(** The three operations: [route.template] and [route.filled] are read
    while the object literal is built, the closures keep [route]. *)
Definition addSegmentObject (segment : string) (route : Ref) (store : ObjectStore)
  : option (Ref * ObjectStore) :=
  match nth_error store route with
  | Some obj =>
      Some (allocObject store
              {| objTemplate := objTemplate obj ++ "/" ++ segment;
                 objParameters := VUndefined;
                 objFillAll := FillAllOfSegment route segment;
                 objFilled :=
                   match objFilled obj with
                   | FilledString s => FilledString (s ++ "/" ++ segment)
                   | FilledFunction _ => FilledFunction (FilledOfSegment route segment)
                   end |})
  | None => None
  end.

Definition addParameterObject (name : string) (route : Ref) (store : ObjectStore)
  : option (Ref * ObjectStore) :=
  match nth_error store route with
  | Some obj =>
      Some (allocObject store
              {| objTemplate := objTemplate obj ++ "/:" ++ name;
                 objParameters := VUndefined;
                 objFillAll := FillAllOfParameter route;
                 objFilled := makeFilledCurryObject (objFilled obj) |})
  | None => None
  end.

Definition addOptionalParameterObject (name : string) (route : Ref) (store : ObjectStore)
  : option (Ref * ObjectStore) :=
  match nth_error store route with
  | Some obj =>
      Some (allocObject store
              {| objTemplate := objTemplate obj ++ "/:" ++ name ++ "?";
                 objParameters := VUndefined;
                 objFillAll := FillAllOfOptional route;
                 objFilled := makeFilledCurryObject (objFilled obj) |})
  | None => None
  end.

Definition applyStepObject (step : RouteStep) (route : Ref) (store : ObjectStore)
  : option (Ref * ObjectStore) :=
  match step with
  | SegmentStep segment => addSegmentObject segment route store
  | ParameterStep name => addParameterObject name route store
  | OptionalParameterStep name => addOptionalParameterObject name route store
  end.

(** A store made by the library: the closures of the object at index [n]
    refer to objects allocated before it. *)
Definition fillAllBelow (n : nat) (fn : FillAllClosure) : bool :=
  match fn with
  | FillAllOfCreate => true
  | FillAllOfSegment route _ | FillAllOfParameter route | FillAllOfOptional route =>
      (route <? n)%nat
  end.

Fixpoint closureBelow (n : nat) (fn : FilledClosure) : bool :=
  match fn with
  | CurryOfString _ => true
  | CurryOfFunction routeArgs => closureBelow n routeArgs
  | FilledOfSegment route _ => (route <? n)%nat
  end.

Definition valueBelow (n : nat) (v : FilledValue) : bool :=
  match v with
  | FilledString _ => true
  | FilledFunction fn => closureBelow n fn
  end.

Definition objectBelow (n : nat) (obj : RouteObject) : bool :=
  fillAllBelow n (objFillAll obj) && valueBelow n (objFilled obj).

Fixpoint wellFormedFrom (index : nat) (store : ObjectStore) : bool :=
  match store with
  | [] => true
  | obj :: rest => objectBelow index obj && wellFormedFrom (S index) rest
  end.

Definition wellFormed (store : ObjectStore) : bool := wellFormedFrom 0 store.

(** A sequence of append operations on route objects: each is applied to
    the object the previous one returned. *)
Fixpoint composeObject (steps : list RouteStep) (route : Ref) (store : ObjectStore)
  : option (Ref * ObjectStore) :=
  match steps with
  | [] => Some (route, store)
  | step :: rest =>
      match applyStepObject step route store with
      | Some (result, store') => composeObject rest result store'
      | None => None
      end
  end.

(** [Represents store t v]: in [store], the value [v] of the route objects
    behaves as the value [t] of the route values: the same string, or a
    function which, called with any argument, returns a value that
    represents what [t] returns. *)
Fixpoint Represents (store : ObjectStore) (t : FilledType) (v : FilledValue) : Prop :=
  match t with
  | FStr s => v = FilledString s
  | FFun g =>
      exists fn,
        v = FilledFunction fn
        /\ closureBelow (List.length store) fn = true
        /\ forall arg,
             exists v',
               callClosure (callRouteFilled (List.length store) store) fn arg = Some v'
               /\ Represents store (g arg) v'
  end.

(** The results of two chains of calls correspond. *)
Definition representsResult (store : ObjectStore)
           (t : option FilledType) (v : option FilledValue) : Prop :=
  match t, v with
  | Some t', Some v' => Represents store t' v'
  | None, None => True
  | _, _ => False
  end.

(** A host for the closed examples on route objects, and the stores made by
    [createRoute()], then [addParameter('a')], then [addSegment('s')]. *)
Definition closureText (fn : FilledClosure) : string := "function".

Definition store_empty : ObjectStore := snd (createRouteObject []).

Definition store_a : ObjectStore :=
  match addParameterObject "a" 0 store_empty with
  | Some (_, store) => store
  | None => store_empty
  end.

Definition store_a_s : ObjectStore :=
  match addSegmentObject "s" 1 store_a with
  | Some (_, store) => store
  | None => store_a
  end.

(** ** The routes of the specification's examples *)

Definition route_a_b : ITypedRoute :=
  addParameter "b" (addParameter "a" createRoute).

Definition route_list_page : ITypedRoute :=
  addOptionalParameter "page" (addSegment "list" createRoute).

Definition route_a_b_s : ITypedRoute :=
  addSegment "s" route_a_b.

Definition route_a_s_b : ITypedRoute :=
  addParameter "b" (addSegment "s" (addParameter "a" createRoute)).

Definition route_opt_a_s_b : ITypedRoute :=
  addParameter "b" (addSegment "s" (addOptionalParameter "a" createRoute)).

Definition route_a_opt_b_s : ITypedRoute :=
  addSegment "s" (addOptionalParameter "b" (addParameter "a" createRoute)).

(** * Properties *)

(** ** Strings and folds *)

Lemma append_assoc (a b c : string) : (a ++ b) ++ c = a ++ (b ++ c).
Proof.
  induction a as [|ch a IH]; simpl; [reflexivity|].
  now rewrite IH.
Qed.

Lemma append_empty_r (a : string) : a ++ "" = a.
Proof.
  induction a as [|ch a IH]; simpl; [reflexivity|].
  now rewrite IH.
Qed.

Lemma compose_snoc (steps : list RouteStep) (step : RouteStep) (route : ITypedRoute) :
  compose (steps ++ [step])%list route = applyStep step (compose steps route).
Proof.
  unfold compose. now rewrite fold_left_app.
Qed.

Lemma template_applyStep (step : RouteStep) (route : ITypedRoute) :
  template (applyStep step route) = template route ++ stepTemplate step.
Proof.
  destruct step; reflexivity.
Qed.

Lemma template_compose (steps : list RouteStep) :
  forall route,
    template (compose steps route) = template route ++ joinAll (map stepTemplate steps).
Proof.
  induction steps as [|step steps IH]; intros route; simpl.
  - now rewrite append_empty_r.
  - unfold compose in *. simpl. rewrite IH, template_applyStep.
    apply append_assoc.
Qed.

Lemma build_chain (steps : list RouteStep) :
  forall this, build (chain steps this) = compose steps (build this).
Proof.
  induction steps as [|step steps IH]; intros this; [reflexivity|].
  unfold chain, compose in *. simpl. rewrite IH.
  destruct step; reflexivity.
Qed.

(** ** Curried steps *)

Lemma CurrySteps_unique (f : FilledType) :
  forall n m, CurrySteps n f -> CurrySteps m f -> n = m.
Proof.
  induction f as [s|g IH]; intros n m Hn Hm.
  - inversion Hn; inversion Hm; reflexivity.
  - inversion Hn as [|n' g' Hn' En Eg]; inversion Hm as [|m' g'' Hm' Em Eg'].
    subst. f_equal.
    apply (IH VNull); [apply Hn' | apply Hm']; reflexivity.
Qed.

Lemma makeFilledCurry_steps (n : nat) (f : FilledType) :
  CurrySteps n f -> CurrySteps (S n) (makeFilledCurry f).
Proof.
  induction 1 as [s|n g Hg IH]; simpl; constructor; intros arg Harg; rewrite Harg.
  - constructor.
  - apply IH, Harg.
Qed.

Lemma addSegment_pending_call (seg : string) (route : ITypedRoute)
      (f : JsValue -> FilledType) (arg : JsValue) :
  filled route = FFun f ->
  call (filled (addSegment seg route)) arg
  = Some (FStr (filledToString (f arg) ++ "/" ++ seg)).
Proof.
  intros Hf. simpl. rewrite Hf. reflexivity.
Qed.

Lemma addSegment_steps (seg : string) (route : ITypedRoute) (n : nat) :
  CurrySteps n (filled route) ->
  CurrySteps (Nat.min n 1) (filled (addSegment seg route)).
Proof.
  intros H. cbn [addSegment filled].
  destruct H as [s|n g Hg].
  - constructor.
  - replace (Nat.min (S n) 1) with 1 by lia.
    constructor. intros arg _. constructor.
Qed.

Lemma applyStep_steps (step : RouteStep) (route : ITypedRoute) (n : nat) :
  CurrySteps n (filled route) ->
  CurrySteps (curryDepthAfter n step) (filled (applyStep step route)).
Proof.
  intros H. destruct step; simpl.
  - now apply addSegment_steps.
  - now apply makeFilledCurry_steps.
  - now apply makeFilledCurry_steps.
Qed.

(** The curried filler of every route needs exactly [curryDepth steps]
    calls. *)
Lemma compose_steps (steps : list RouteStep) :
  forall route n,
    CurrySteps n (filled route) ->
    CurrySteps (fold_left curryDepthAfter steps n) (filled (compose steps route)).
Proof.
  induction steps as [|step steps IH]; intros route n H; [exact H|].
  unfold compose in *. simpl. apply IH. now apply applyStep_steps.
Qed.

Lemma curryDepth_steps (steps : list RouteStep) :
  CurrySteps (curryDepth steps) (filled (compose steps createRoute)).
Proof.
  apply compose_steps. constructor.
Qed.

Lemma curryDepth_segmentsEarly (steps : list RouteStep) :
  forall n,
    segmentsEarly n steps = true ->
    fold_left curryDepthAfter steps n = n + countParameters steps.
Proof.
  unfold countParameters.
  induction steps as [|step steps IH]; intros n H; simpl in *; [lia|].
  destruct step; simpl in *.
  - apply andb_prop in H as [Hn H]. apply Nat.leb_le in Hn.
    rewrite Nat.min_l by lia. now apply IH.
  - rewrite IH by assumption. lia.
  - rewrite IH by assumption. lia.
Qed.

(** With one pending parameter the Segment Operation does what it is meant
    to: the single call returns the inner string followed by [/segment]. *)
Lemma addSegment_one_pending (seg s : string) (route : ITypedRoute) (arg : JsValue) :
  filled route = makeFilledCurry (FStr s) ->
  call (filled (addSegment seg route)) arg
  = Some (FStr ((if isDefined arg then s ++ "/" ++ ToString arg else s) ++ "/" ++ seg)).
Proof.
  intros Hf. simpl. rewrite Hf. simpl. now destruct (isDefined arg).
Qed.

(** ** Chains of parameters *)

Lemma makeFilledCurry_pending (n : nat) :
  forall s f, Pending n s f -> Pending (S n) s (makeFilledCurry f).
Proof.
  induction n as [|n IH]; intros s f H.
  - simpl in H. subst f. simpl. eexists. split; [reflexivity|].
    intros arg. unfold curriedPiece.
    destruct (isDefined arg); [reflexivity|].
    now rewrite append_empty_r.
  - destruct H as [g [-> Hg]].
    exists (fun arg => if isDefined arg then makeFilledCurry (g arg) else FFun g).
    split; [reflexivity|].
    intros arg. unfold curriedPiece at 1.
    destruct (isDefined arg) eqn:Harg.
    + replace ("/" ++ ToString arg) with (curriedPiece arg)
        by (unfold curriedPiece; now rewrite Harg).
      apply IH, Hg.
    + rewrite append_empty_r. exists g. split; [reflexivity|exact Hg].
Qed.

Lemma Pending_calls (n : nat) :
  forall s f args,
    Pending n s f ->
    List.length args = n ->
    calls f args = Some (FStr (s ++ joinAll (map curriedPiece args))).
Proof.
  induction n as [|n IH]; intros s f args H Hlen.
  - destruct args; [|discriminate]. simpl in *. subst f.
    now rewrite append_empty_r.
  - destruct args as [|arg args]; [discriminate|].
    destruct H as [g [-> Hg]]. simpl.
    rewrite (IH _ _ args (Hg arg)) by (simpl in Hlen; lia).
    now rewrite append_assoc.
Qed.

Lemma compose_parameters_pending (steps : list RouteStep) :
  forall route n s,
    forallb isParameter steps = true ->
    Pending n s (filled route) ->
    Pending (n + List.length steps) s (filled (compose steps route)).
Proof.
  induction steps as [|step steps IH]; intros route n s Hall H.
  - simpl. now rewrite Nat.add_0_r.
  - simpl in Hall. apply andb_prop in Hall as [Hstep Hall].
    unfold compose in *. simpl.
    replace (n + S (List.length steps)) with (S n + List.length steps) by lia.
    apply IH; [exact Hall|].
    destruct step; [discriminate| |]; now apply makeFilledCurry_pending.
Qed.

(** ** The flat filler *)

Lemma fillAll_compose (steps : list RouteStep) :
  forall route values rest,
    List.length values = countParameters steps ->
    fillAll (compose steps route) (rev values ++ rest)%list
    = fillAll route rest ++ pathOf steps values.
Proof.
  unfold countParameters, compose.
  induction steps as [|step steps IH]; intros route values rest Hlen.
  - destruct values; [|discriminate]. simpl. now rewrite append_empty_r.
  - destruct step as [seg|name|name]; simpl in Hlen |- *.
    + rewrite IH by exact Hlen. simpl. now rewrite !append_assoc.
    + destruct values as [|v values]; [discriminate|].
      simpl rev. rewrite <- app_assoc. rewrite IH by (simpl in Hlen; lia).
      simpl. now rewrite !append_assoc.
    + destruct values as [|v values]; [discriminate|].
      simpl rev. rewrite <- app_assoc. rewrite IH by (simpl in Hlen; lia).
      simpl. unfold curriedPiece, firstArg, restArgs. simpl.
      destruct (isDefined v); simpl.
      * now rewrite !append_assoc.
      * reflexivity.
Qed.

(** ** The examples of the specification *)

Example empty_route :
  template createRoute = "" /\ fillAll createRoute [] = "" /\ filled createRoute = FStr "".
Proof. repeat split. Qed.

Example segments_a_b :
  let route := addSegment "b" (addSegment "a" createRoute) in
  template route = "/a/b" /\ filled route = FStr "/a/b".
Proof. split; reflexivity. Qed.

Example required_round_trip :
  let route := addSegment "edit" (addParameter "id" createRoute) in
  template route = "/:id/edit"
  /\ call (filled route) (VNumber 42) = Some (FStr "/42/edit")
  /\ fillAll route [VNumber 42] = "/42/edit".
Proof. repeat split. Qed.

(** ** The claims *)

(** C1 (defect in [addSegment]).  The Segment Operation on a pending chain is
    meant to append [/segment] to the string at the end of the chain and to
    keep every curry step.  On the route empty -> a -> b -> segment [s], with
    two pending parameters, the first call [filled(1)] does not return a
    function: the inner call returns the function that waits for [b], the
    template literal turns that function into its source text, and the call
    answers with that text followed by [/s].  The second call then fails,
    a string not being callable. *)
Theorem addSegment_two_pending_first_call_is_string :
  call (filled route_a_b_s) (VNumber 1)
  = Some (FStr (functionToString
                  (fun arg => if isDefined arg
                              then FStr ("/1" ++ "/" ++ ToString arg)
                              else FStr "/1")
                ++ "/s"))
  /\ calls (filled route_a_b_s) [VNumber 1; VNumber 2] = None.
Proof.
  split; reflexivity.
Qed.

(** C2.  On the route empty -> a -> b, the curried filler takes the values
    in declaration order, [filled(1)(2) = '/1/2'], and the flat filler takes
    them in reverse declaration order, [fillAll(2, 1) = '/1/2']. *)
Theorem two_parameters_ordering :
  calls (filled route_a_b) [VNumber 1; VNumber 2] = Some (FStr "/1/2")
  /\ fillAll route_a_b [VNumber 2; VNumber 1] = "/1/2".
Proof.
  split; reflexivity.
Qed.

(** C3 (defect in [addSegment]).  The number of curried steps is meant to be
    the number of parameters added, segments not changing it.  On the
    sequence a, b, segment [s] two parameters were added, yet [filled] gives
    a plain string after one call with a defined value: it has one curried
    step, not two. *)
Theorem segment_after_two_parameters_step_count :
  let steps := [ParameterStep "a"; ParameterStep "b"; SegmentStep "s"] in
  countParameters steps = 2
  /\ CurrySteps 1 (filled (compose steps createRoute))
  /\ stepsWith (VNumber 1) (filled (compose steps createRoute)) = 1
  /\ ~ CurrySteps (countParameters steps) (filled (compose steps createRoute)).
Proof.
  cbv zeta.
  assert (H1 : CurrySteps 1
                 (filled (compose [ParameterStep "a"; ParameterStep "b"; SegmentStep "s"]
                                  createRoute)))
    by apply (curryDepth_steps [ParameterStep "a"; ParameterStep "b"; SegmentStep "s"]).
  repeat split; try reflexivity; try exact H1.
  intros H2. pose proof (CurrySteps_unique _ _ _ H1 H2) as E. discriminate E.
Qed.

(** C4.  On the route empty -> segment [list] -> optional [page]:
    [filled(undefined) = '/list'], [filled(5) = '/list/5'],
    [fillAll(undefined) = '/list'] and [fillAll(7) = '/list/7']. *)
Theorem optional_parameter_omission :
  call (filled route_list_page) VUndefined = Some (FStr "/list")
  /\ call (filled route_list_page) (VNumber 5) = Some (FStr "/list/5")
  /\ fillAll route_list_page [VUndefined] = "/list"
  /\ fillAll route_list_page [VNumber 7] = "/list/7".
Proof.
  repeat split.
Qed.

(** C6.  A builder constructed with no argument, driven through any
    sequence of [segment] / [parameter] / [optionalParameter] calls and then
    [build()], yields a route observably identical to the standalone
    operations composed in the same order on [createRoute()]: same
    [template], same results of [fillAll] and of the [filled] chain on all
    argument lists. *)
Theorem builder_equivalence (steps : list RouteStep) :
  template (build (chain steps (newTypedRouteBuilder None)))
  = template (compose steps createRoute)
  /\ (forall args,
        fillAll (build (chain steps (newTypedRouteBuilder None))) args
        = fillAll (compose steps createRoute) args)
  /\ (forall args,
        calls (filled (build (chain steps (newTypedRouteBuilder None)))) args
        = calls (filled (compose steps createRoute)) args)
  /\ build (chain steps (newTypedRouteBuilder None)) = compose steps createRoute.
Proof.
  rewrite build_chain. repeat split.
Qed.

(** C7.  The template of the route produced by any sequence of append
    operations from [createRoute()] is the concatenation, in application
    order, of [/segment], [/:name] and [/:name?]; the empty route has the
    empty template. *)
Theorem template_is_concatenation (steps : list RouteStep) :
  template (compose steps createRoute) = joinAll (map stepTemplate steps)
  /\ template createRoute = "".
Proof.
  split; [|reflexivity].
  now rewrite template_compose.
Qed.

(** ** Further properties *)

(** X1.  When every segment is added while at most one parameter is pending,
    the number of curried steps of [filled] is the number of parameters
    added. *)
Theorem step_count_when_segments_early (steps : list RouteStep) :
  segmentsEarly 0 steps = true ->
  CurrySteps (countParameters steps) (filled (compose steps createRoute)).
Proof.
  intros H.
  replace (countParameters steps) with (curryDepth steps).
  - apply curryDepth_steps.
  - unfold curryDepth. now rewrite curryDepth_segmentsEarly.
Qed.

(** X2.  A route whose [filled] is the string [s], extended by parameters
    only (required or optional), has a curried filler that takes one value
    per parameter, in declaration order, and returns [s] followed by
    [/value] for every value that is not [undefined]. *)
Theorem parameters_chain_filled (steps : list RouteStep) (route : ITypedRoute)
        (s : string) (args : list JsValue) :
  filled route = FStr s ->
  forallb isParameter steps = true ->
  List.length args = List.length steps ->
  calls (filled (compose steps route)) args
  = Some (FStr (s ++ joinAll (map curriedPiece args))).
Proof.
  intros Hs Hall Hlen.
  apply (Pending_calls (List.length steps)); [|exact Hlen].
  apply (compose_parameters_pending steps route 0 s Hall).
  exact Hs.
Qed.

(** X3.  The flat filler takes the parameter values in reverse declaration
    order: given the reversed list of values it returns the path that the
    operations describe for them. *)
Theorem fillAll_reverse_order (steps : list RouteStep) (values : list JsValue) :
  List.length values = countParameters steps ->
  fillAll (compose steps createRoute) (rev values) = pathOf steps values.
Proof.
  intros Hlen.
  rewrite <- (app_nil_r (rev values)).
  now rewrite fillAll_compose.
Qed.

(** ** The two fillers on defined values *)

Lemma Fills_ext (n : nat) :
  forall path path' f,
    (forall values, List.length values = n ->
                    forallb isDefined values = true ->
                    path values = path' values) ->
    Fills n path f -> Fills n path' f.
Proof.
  induction n as [|n IH]; intros path path' f Heq H; simpl in *.
  - now rewrite <- (Heq [] eq_refl eq_refl).
  - destruct H as [g [-> Hg]]. exists g. split; [reflexivity|].
    intros arg Harg. apply (IH (fun values => path (arg :: values))).
    + intros values Hlen Hall. apply Heq; simpl; [now rewrite Hlen|].
      now rewrite Harg.
    + now apply Hg.
Qed.

Lemma Fills_calls (n : nat) :
  forall path f values,
    Fills n path f ->
    List.length values = n ->
    forallb isDefined values = true ->
    calls f values = Some (FStr (path values)).
Proof.
  induction n as [|n IH]; intros path f values H Hlen Hall.
  - destruct values; [|discriminate]. simpl in *. now subst f.
  - destruct values as [|v values]; [discriminate|].
    simpl in Hall. apply andb_prop in Hall as [Hv Hall].
    destruct H as [g [-> Hg]]. simpl.
    apply (IH (fun rest => path (v :: rest))); [now apply Hg| |exact Hall].
    simpl in Hlen. lia.
Qed.

Lemma makeFilledCurry_fills (n : nat) :
  forall path f,
    Fills n path f ->
    Fills (S n)
          (fun values => path (firstn n values) ++ "/" ++ ToString (nth n values VUndefined))
          (makeFilledCurry f).
Proof.
  induction n as [|n IH]; intros path f H.
  - simpl in H. subst f.
    exists (fun arg => if isDefined arg
                       then FStr (path [] ++ "/" ++ ToString arg)
                       else FStr (path [])).
    split; [reflexivity|].
    intros arg Harg. simpl. now rewrite Harg.
  - destruct H as [g [-> Hg]].
    exists (fun arg => if isDefined arg then makeFilledCurry (g arg) else FFun g).
    split; [reflexivity|].
    intros arg Harg. cbv beta. rewrite Harg.
    apply (IH (fun values => path (arg :: values))). now apply Hg.
Qed.

Lemma addSegment_fills (seg : string) (route : ITypedRoute) (n : nat)
      (path : list JsValue -> string) :
  (n <= 1)%nat ->
  Fills n path (filled route) ->
  Fills n (fun values => path values ++ "/" ++ seg) (filled (addSegment seg route)).
Proof.
  intros Hn H. cbn [addSegment filled].
  destruct n as [|[|n]]; [| |lia].
  - simpl in H. now rewrite H.
  - destruct H as [g [-> Hg]]. eexists. split; [reflexivity|].
    intros arg Harg. specialize (Hg arg Harg). simpl in Hg |- *. rewrite Hg.
    reflexivity.
Qed.

Lemma tl_skipn (n : nat) :
  forall values : list JsValue, tl (skipn n values) = skipn (S n) values.
Proof.
  induction n as [|n IH]; intros [|v values]; try reflexivity.
  simpl. rewrite IH. now destruct values.
Qed.

Lemma hd_skipn (n : nat) :
  forall values, hd VUndefined (skipn n values) = nth n values VUndefined.
Proof.
  induction n as [|n IH]; intros [|v values]; try reflexivity.
  simpl. apply IH.
Qed.

Lemma isDefined_nth (n : nat) :
  forall values,
    forallb isDefined values = true ->
    (n < List.length values)%nat ->
    isDefined (nth n values VUndefined) = true.
Proof.
  induction n as [|n IH]; intros [|v values] Hall Hlen; simpl in *; try lia.
  - now apply andb_prop in Hall as [Hv _].
  - apply andb_prop in Hall as [_ Hall]. apply IH; [exact Hall|lia].
Qed.

Lemma compose_fills (steps : list RouteStep) :
  forall route n path,
    Fills n path (filled route) ->
    segmentsEarly n steps = true ->
    Fills (n + countParameters steps)
          (fun values => path (firstn n values) ++ pathOf steps (skipn n values))
          (filled (compose steps route)).
Proof.
  unfold countParameters, compose.
  induction steps as [|step steps IH]; intros route n path H Hearly.
  - simpl. rewrite Nat.add_0_r. apply (Fills_ext n path); [|exact H].
    intros values Hlen _. rewrite firstn_all2 by lia.
    now rewrite append_empty_r.
  - destruct step as [seg|name|name]; simpl in Hearly |- *.
    + apply andb_prop in Hearly as [Hn Hearly]. apply Nat.leb_le in Hn.
      eapply Fills_ext; [|apply IH; [apply (addSegment_fills seg), H; exact Hn|exact Hearly]].
      intros values _ _. simpl. now rewrite !append_assoc.
    + replace (n + S (List.length (filter isParameter steps)))
        with (S n + List.length (filter isParameter steps)) by lia.
      eapply Fills_ext; [|apply IH; [apply makeFilledCurry_fills, H|exact Hearly]].
      intros values Hlen _. cbv beta.
      rewrite firstn_firstn, Nat.min_l by lia.
      rewrite nth_firstn. replace (n <? S n)%nat with true by (symmetry; apply Nat.ltb_lt; lia).
      unfold firstArg, restArgs. rewrite hd_skipn, tl_skipn.
      now rewrite !append_assoc.
    + replace (n + S (List.length (filter isParameter steps)))
        with (S n + List.length (filter isParameter steps)) by lia.
      eapply Fills_ext; [|apply IH; [apply makeFilledCurry_fills, H|exact Hearly]].
      intros values Hlen Hall. cbv beta.
      rewrite firstn_firstn, Nat.min_l by lia.
      rewrite nth_firstn. replace (n <? S n)%nat with true by (symmetry; apply Nat.ltb_lt; lia).
      unfold firstArg, restArgs, curriedPiece. rewrite hd_skipn, tl_skipn.
      rewrite (isDefined_nth n values Hall) by lia.
      now rewrite !append_assoc.
Qed.

(** X4.  When every segment is added while at most one parameter is
    pending, the two fillers agree on values none of which is [undefined]:
    the curried filler called with the values in declaration order returns
    what the flat filler returns on the reversed list. *)
Theorem fillers_agree_on_defined_values (steps : list RouteStep) (values : list JsValue) :
  segmentsEarly 0 steps = true ->
  List.length values = countParameters steps ->
  forallb isDefined values = true ->
  calls (filled (compose steps createRoute)) values
  = Some (FStr (fillAll (compose steps createRoute) (rev values))).
Proof.
  intros Hearly Hlen Hall.
  rewrite <- (app_nil_r (rev values)), fillAll_compose by exact Hlen.
  apply (Fills_calls (0 + countParameters steps)
                     (fun values => "" ++ pathOf steps (skipn 0 values)));
    [|exact Hlen|exact Hall].
  apply (compose_fills steps createRoute 0 (fun _ => "")); [reflexivity|exact Hearly].
Qed.

(** ** More on the flat filler and the template *)

Lemma fillAll_padding (steps : list RouteStep) :
  forall route,
    (forall args k, fillAll route (args ++ repeat VUndefined k)%list = fillAll route args) ->
    forall args k,
      fillAll (compose steps route) (args ++ repeat VUndefined k)%list
      = fillAll (compose steps route) args.
Proof.
  unfold compose.
  induction steps as [|step steps IH]; intros route Hroute; [exact Hroute|].
  simpl. apply IH. intros args k.
  assert (Hhd : firstArg (args ++ repeat VUndefined k)%list = firstArg args)
    by (destruct args; [destruct k|]; reflexivity).
  assert (Htl : fillAll route (restArgs (args ++ repeat VUndefined k)%list)
                = fillAll route (restArgs args)).
  { destruct args as [|a args]; simpl.
    - destruct k; [reflexivity|]. simpl. apply (Hroute [] k).
    - apply Hroute. }
  destruct step; simpl; rewrite ?Hhd, ?Htl; try reflexivity.
  now rewrite Hroute.
Qed.

Lemma fillAll_no_arguments (steps : list RouteStep) :
  forall route,
    fillAll (compose steps route) []
    = fillAll route [] ++ joinAll (map stepWithoutValue steps).
Proof.
  unfold compose.
  induction steps as [|step steps IH]; intros route; simpl.
  - now rewrite append_empty_r.
  - rewrite IH. destruct step; simpl; rewrite ?append_assoc; reflexivity.
Qed.

Lemma placeholders_length (steps : list RouteStep) :
  List.length (placeholders steps) = countParameters steps.
Proof.
  unfold countParameters, placeholders.
  induction steps as [|[seg|name|name] steps IH]; simpl in *; rewrite ?IH; reflexivity.
Qed.

Lemma placeholders_defined (steps : list RouteStep) :
  forallb isDefined (placeholders steps) = true.
Proof.
  unfold placeholders.
  induction steps as [|[seg|name|name] steps IH]; simpl in *; rewrite ?IH; reflexivity.
Qed.

Lemma pathOf_placeholders (steps : list RouteStep) :
  pathOf steps (placeholders steps) = joinAll (map stepTemplate steps).
Proof.
  unfold placeholders.
  induction steps as [|[seg|name|name] steps IH]; simpl in *; rewrite ?IH; reflexivity.
Qed.

(** X5.  A builder constructed from an existing route extends that route:
    after any chain of calls, [build()] returns the standalone operations
    applied to it, its template is the route's template followed by what the
    calls add, and its [fillAll] consumes the new values (in reverse order)
    and hands the remaining arguments to the route's [fillAll]. *)
Theorem builder_extends_adopted_route (steps : list RouteStep) (route : ITypedRoute)
        (values rest : list JsValue) :
  List.length values = countParameters steps ->
  build (chain steps (newTypedRouteBuilder (Some route))) = compose steps route
  /\ template (build (chain steps (newTypedRouteBuilder (Some route))))
     = template route ++ joinAll (map stepTemplate steps)
  /\ fillAll (build (chain steps (newTypedRouteBuilder (Some route))))
             (rev values ++ rest)%list
     = fillAll route rest ++ pathOf steps values.
Proof.
  intros Hlen. rewrite build_chain. simpl build.
  repeat split.
  - apply template_compose.
  - now apply fillAll_compose.
Qed.

(** X6.  Arguments given to [fillAll] beyond one per parameter are ignored. *)
Theorem fillAll_ignores_surplus_arguments (steps : list RouteStep)
        (values surplus : list JsValue) :
  List.length values = countParameters steps ->
  fillAll (compose steps createRoute) (rev values ++ surplus)%list
  = fillAll (compose steps createRoute) (rev values).
Proof.
  intros Hlen.
  rewrite fillAll_compose by exact Hlen.
  rewrite <- (app_nil_r (rev values)).
  now rewrite fillAll_compose.
Qed.

(** X7.  An argument that [fillAll] is not given counts as [undefined]:
    trailing [undefined] arguments change nothing, and called with no
    argument at all [fillAll] prints [/undefined] for every required
    parameter and leaves every optional one out. *)
Theorem fillAll_missing_arguments (steps : list RouteStep) (args : list JsValue) (k : nat) :
  fillAll (compose steps createRoute) (args ++ repeat VUndefined k)%list
  = fillAll (compose steps createRoute) args
  /\ fillAll (compose steps createRoute) [] = joinAll (map stepWithoutValue steps).
Proof.
  split.
  - now apply fillAll_padding.
  - now rewrite fillAll_no_arguments.
Qed.

(** X8.  Filling every parameter with its own placeholder ([:name], or
    [:name?] for an optional one) gives back the template. *)
Theorem fillAll_placeholders_is_template (steps : list RouteStep) :
  fillAll (compose steps createRoute) (rev (placeholders steps))
  = template (compose steps createRoute).
Proof.
  rewrite <- (app_nil_r (rev (placeholders steps))).
  rewrite fillAll_compose by apply placeholders_length.
  rewrite template_compose, pathOf_placeholders. reflexivity.
Qed.

(** X9.  The same through the curried filler, when every segment is added
    while at most one parameter is pending: called with the placeholders in
    declaration order it returns the template. *)
Theorem filled_placeholders_is_template (steps : list RouteStep) :
  segmentsEarly 0 steps = true ->
  calls (filled (compose steps createRoute)) (placeholders steps)
  = Some (FStr (template (compose steps createRoute))).
Proof.
  intros Hearly.
  rewrite template_compose. simpl template.
  rewrite <- pathOf_placeholders.
  apply (Fills_calls (0 + countParameters steps)
                     (fun values => "" ++ pathOf steps (skipn 0 values))).
  - apply (compose_fills steps createRoute 0 (fun _ => "")); [reflexivity|exact Hearly].
  - apply placeholders_length.
  - apply placeholders_defined.
Qed.

(** ** Routes without and with parameters *)

Lemma compose_segments_only (steps : list RouteStep) :
  forall route,
    countParameters steps = 0 ->
    filled route = FStr (template route) ->
    (forall args, fillAll route args = template route) ->
    filled (compose steps route) = FStr (template (compose steps route))
    /\ forall args, fillAll (compose steps route) args = template (compose steps route).
Proof.
  unfold countParameters, compose.
  induction steps as [|[seg|name|name] steps IH]; intros route Hcount Hfilled Hfill;
    simpl in Hcount; try discriminate.
  - split; assumption.
  - simpl. apply IH; [exact Hcount| |].
    + simpl. now rewrite Hfilled.
    + intros args. simpl. now rewrite Hfill.
Qed.

Lemma compose_pending (steps : list RouteStep) :
  forall route,
    (exists g, filled route = FFun g) \/ (0 < countParameters steps)%nat ->
    exists g, filled (compose steps route) = FFun g.
Proof.
  unfold countParameters, compose.
  induction steps as [|step steps IH]; intros route H.
  - destruct H as [H|H]; [exact H|simpl in H; lia].
  - simpl. apply IH. destruct step as [seg|name|name]; simpl.
    + destruct H as [[g Hg]|H]; [left|right; exact H].
      rewrite Hg. eexists. reflexivity.
    + left. destruct (filled route); eexists; reflexivity.
    + left. destruct (filled route); eexists; reflexivity.
Qed.

(** X10.  [filled] is a plain string exactly when no parameter was added.
    A route made of segments only has [filled] equal to its template, and
    its [fillAll] returns the template whatever the arguments; as soon as one
    parameter was added, [filled] is a function, whatever follows. *)
Theorem filled_is_string_iff_no_parameter (steps : list RouteStep) :
  match countParameters steps with
  | 0 =>
      filled (compose steps createRoute) = FStr (template (compose steps createRoute))
      /\ forall args,
           fillAll (compose steps createRoute) args = template (compose steps createRoute)
  | S _ => exists g, filled (compose steps createRoute) = FFun g
  end.
Proof.
  destruct (countParameters steps) eqn:Hcount.
  - apply compose_segments_only; [exact Hcount|reflexivity|reflexivity].
  - apply compose_pending. right. lia.
Qed.

(** X11.  The template of a route to which anything was added starts with
    a slash. *)
Theorem template_starts_with_slash (steps : list RouteStep) :
  steps <> [] ->
  exists rest, template (compose steps createRoute) = String "/" rest.
Proof.
  intros Hsteps. rewrite template_compose.
  destruct steps as [|[seg|name|name] steps]; [contradiction| | |];
    simpl; eexists; reflexivity.
Qed.

(** X12.  An optional parameter left out, then a segment, then one more
    parameter: the flat filler leaves the optional parameter out and puts
    the value after the segment, while the curried filler called with
    [undefined] and then the value puts the value before the segment. *)
Theorem omitted_optional_before_segment (name seg s : string) (last : RouteStep)
        (route : ITypedRoute) (value : JsValue) :
  filled route = FStr s ->
  fillAll route [] = s ->
  isParameter last = true ->
  isDefined value = true ->
  fillAll (applyStep last (addSegment seg (addOptionalParameter name route)))
          [value; VUndefined]
  = (s ++ "/" ++ seg) ++ "/" ++ ToString value
  /\ calls (filled (applyStep last (addSegment seg (addOptionalParameter name route))))
           [VUndefined; value]
     = Some (FStr ((s ++ "/" ++ ToString value) ++ "/" ++ seg)).
Proof.
  intros Hfilled Hfill Hlast Hvalue.
  destruct last as [seg'|name'|name']; [discriminate| |];
    simpl; unfold firstArg, restArgs; simpl;
    rewrite Hfilled, Hfill, ?Hvalue; simpl; rewrite Hvalue; split; reflexivity.
Qed.

(** ** Builders in the store *)

Lemma nth_error_assign_same (xs : list Ref) :
  forall i x, (i < List.length xs)%nat -> nth_error (assign xs i x) i = Some x.
Proof.
  induction xs as [|y xs IH]; intros [|i] x Hi; simpl in *; try lia.
  - reflexivity.
  - apply IH. lia.
Qed.

Lemma nth_error_assign_other (xs : list Ref) :
  forall i j x, j <> i -> nth_error (assign xs i x) j = nth_error xs j.
Proof.
  induction xs as [|y xs IH]; intros [|i] [|j] x Hij; simpl; try reflexivity.
  - contradiction.
  - apply IH. congruence.
Qed.

Lemma builderCallRef_runs (step : RouteStep) (this : Ref) (heap : Heap)
      (held : Ref) (obj : ITypedRoute) :
  buildRef this heap = Some held ->
  deref (routeObjects heap) held = Some obj ->
  builderCallRef step this heap
  = Some (this,
          {| routeObjects := (routeObjects heap ++ [applyStep step obj])%list;
             builderObjects :=
               assign (builderObjects heap) this (List.length (routeObjects heap)) |}).
Proof.
  unfold builderCallRef, buildRef, applyStepRef, alloc, deref.
  intros -> ->. reflexivity.
Qed.

Lemma chainRef_runs (steps : list RouteStep) :
  forall this heap held obj,
    buildRef this heap = Some held ->
    deref (routeObjects heap) held = Some obj ->
    exists heap' result,
      chainRef steps this heap = Some (this, heap')
      /\ buildRef this heap' = Some result
      /\ deref (routeObjects heap') result = Some (compose steps obj)
      /\ (forall r other, deref (routeObjects heap) r = Some other ->
                          deref (routeObjects heap') r = Some other)
      /\ (forall other, other <> this -> buildRef other heap' = buildRef other heap).
Proof.
  induction steps as [|step steps IH]; intros this heap held obj Hheld Hobj.
  - exists heap, held. repeat split; auto.
  - simpl. rewrite (builderCallRef_runs step this heap held obj Hheld Hobj).
    assert (Hthis : (this < List.length (builderObjects heap))%nat)
      by (apply nth_error_Some; unfold buildRef in Hheld; congruence).
    destruct (IH this
                 {| routeObjects := (routeObjects heap ++ [applyStep step obj])%list;
                    builderObjects :=
                      assign (builderObjects heap) this (List.length (routeObjects heap)) |}
                 (List.length (routeObjects heap)) (applyStep step obj))
      as (heap' & result & Hrun & Hbuild & Hresult & Hkeep & Hothers).
    + unfold buildRef. simpl. now apply nth_error_assign_same.
    + unfold deref. simpl. rewrite nth_error_app2 by lia. now rewrite Nat.sub_diag.
    + exists heap', result. repeat split; try assumption.
      * intros r other Hr. apply Hkeep. unfold deref in *. simpl.
        rewrite nth_error_app1; [exact Hr|]. apply nth_error_Some. congruence.
      * intros other Hother. rewrite Hothers by exact Hother.
        unfold buildRef. simpl. now apply nth_error_assign_other.
Qed.

(** X14.  In the store, a builder constructed with no argument and driven
    through any chain of calls never fails; every call returns the same
    builder, which in the end holds the route that the standalone operations
    give from the empty route.  The routes and the builders that were in the
    store before are what they were. *)
Theorem builder_chain_in_store (steps : list RouteStep) (heap : Heap) :
  exists heap' result,
    chainRef steps (fst (newBuilderRef None heap)) (snd (newBuilderRef None heap))
    = Some (fst (newBuilderRef None heap), heap')
    /\ buildRef (fst (newBuilderRef None heap)) heap' = Some result
    /\ deref (routeObjects heap') result = Some (compose steps createRoute)
    /\ (forall r obj, deref (routeObjects heap) r = Some obj ->
                      deref (routeObjects heap') r = Some obj)
    /\ (forall other, (other < List.length (builderObjects heap))%nat ->
                      buildRef other heap' = buildRef other heap).
Proof.
  simpl.
  destruct (chainRef_runs steps (List.length (builderObjects heap))
              {| routeObjects := (routeObjects heap ++ [createRoute])%list;
                 builderObjects :=
                   (builderObjects heap ++ [List.length (routeObjects heap)])%list |}
              (List.length (routeObjects heap)) createRoute)
    as (heap' & result & Hrun & Hbuild & Hresult & Hkeep & Hothers).
  - unfold buildRef. simpl. rewrite nth_error_app2 by lia. now rewrite Nat.sub_diag.
  - unfold deref. simpl. rewrite nth_error_app2 by lia. now rewrite Nat.sub_diag.
  - exists heap', result. repeat split; try assumption.
    + intros r obj Hr. apply Hkeep. unfold deref in *. simpl.
      rewrite nth_error_app1; [exact Hr|]. apply nth_error_Some. congruence.
    + intros other Hother. rewrite Hothers by lia.
      unfold buildRef. simpl. now rewrite nth_error_app1.
Qed.

(** X15.  A builder constructed from a route of the store holds that very
    route until its first chaining call.  After any chain of calls it holds
    the standalone operations applied to the route, and the route it was
    given is still in the store unchanged. *)
Theorem builder_adopts_route_in_store (steps : list RouteStep) (heap : Heap)
        (route : Ref) (obj : ITypedRoute) :
  deref (routeObjects heap) route = Some obj ->
  buildRef (fst (newBuilderRef (Some route) heap)) (snd (newBuilderRef (Some route) heap))
  = Some route
  /\ exists heap' result,
       chainRef steps (fst (newBuilderRef (Some route) heap))
                (snd (newBuilderRef (Some route) heap))
       = Some (fst (newBuilderRef (Some route) heap), heap')
       /\ buildRef (fst (newBuilderRef (Some route) heap)) heap' = Some result
       /\ deref (routeObjects heap') result = Some (compose steps obj)
       /\ deref (routeObjects heap') route = Some obj.
Proof.
  intros Hobj. simpl.
  assert (Hheld : buildRef (List.length (builderObjects heap))
                    {| routeObjects := routeObjects heap;
                       builderObjects := (builderObjects heap ++ [route])%list |}
                  = Some route).
  { unfold buildRef. simpl. rewrite nth_error_app2 by lia. now rewrite Nat.sub_diag. }
  split; [exact Hheld|].
  destruct (chainRef_runs steps _ _ route obj Hheld Hobj)
    as (heap' & result & Hrun & Hbuild & Hresult & Hkeep & _).
  exists heap', result. repeat split; try assumption.
  apply Hkeep. exact Hobj.
Qed.

(** ** Too few and too many calls *)

Lemma CurrySteps_calls (values : list JsValue) :
  forall n f,
    CurrySteps n f ->
    forallb isDefined values = true ->
    match Nat.compare (List.length values) n with
    | Lt => exists g, calls f values = Some (FFun g)
    | Eq => exists s, calls f values = Some (FStr s)
    | Gt => calls f values = None
    end.
Proof.
  induction values as [|v values IH]; intros n f H Hall.
  - destruct H as [s|n g Hg]; simpl; eexists; reflexivity.
  - simpl in Hall. apply andb_prop in Hall as [Hv Hall].
    destruct H as [s|n g Hg]; simpl; [reflexivity|].
    apply IH; [now apply Hg|exact Hall].
Qed.

Lemma curryDepth_le (steps : list RouteStep) :
  forall n, (fold_left curryDepthAfter steps n <= n + countParameters steps)%nat.
Proof.
  unfold countParameters.
  induction steps as [|[seg|name|name] steps IH]; intros n; simpl; [lia| | |].
  - specialize (IH (Nat.min n 1)). lia.
  - specialize (IH (S n)). lia.
  - specialize (IH (S n)). lia.
Qed.

(** X16.  Every route has a fixed number of curried steps, at most the
    number of its parameters.  Called with fewer values ([undefined] apart)
    the curried filler still returns a function, called with exactly that
    many it returns a string, and one call more fails, the string not being
    callable. *)
Theorem calls_by_number_of_values (steps : list RouteStep) (values : list JsValue) :
  forallb isDefined values = true ->
  (curryDepth steps <= countParameters steps)%nat
  /\ match Nat.compare (List.length values) (curryDepth steps) with
     | Lt => exists g, calls (filled (compose steps createRoute)) values = Some (FFun g)
     | Eq => exists s, calls (filled (compose steps createRoute)) values = Some (FStr s)
     | Gt => calls (filled (compose steps createRoute)) values = None
     end.
Proof.
  intros Hall. split.
  - apply (curryDepth_le steps 0).
  - apply CurrySteps_calls; [apply curryDepth_steps|exact Hall].
Qed.

(** ** [undefined] in the curried chain *)


Lemma compose_app (steps more : list RouteStep) (route : ITypedRoute) :
  compose (steps ++ more)%list route = compose more (compose steps route).
Proof.
  unfold compose. apply fold_left_app.
Qed.

Lemma countParameters_app (steps more : list RouteStep) :
  countParameters (steps ++ more)%list = countParameters steps + countParameters more.
Proof.
  unfold countParameters. now rewrite filter_app, length_app.
Qed.

Lemma segmentsEarly_app (steps : list RouteStep) :
  forall pending more,
    segmentsEarly pending (steps ++ more)%list = true ->
    segmentsEarly pending steps = true
    /\ segmentsEarly (pending + countParameters steps) more = true.
Proof.
  unfold countParameters.
  induction steps as [|[seg|name|name] steps IH]; intros pending more H; simpl in *.
  - now rewrite Nat.add_0_r.
  - apply andb_prop in H as [Hp H]. destruct (IH _ _ H) as [H1 H2].
    now rewrite Hp, H1.
  - destruct (IH _ _ H) as [H1 H2]. split; [exact H1|].
    now replace (pending + S (List.length (filter isParameter steps)))
      with (S pending + List.length (filter isParameter steps)) by lia.
  - destruct (IH _ _ H) as [H1 H2]. split; [exact H1|].
    now replace (pending + S (List.length (filter isParameter steps)))
      with (S pending + List.length (filter isParameter steps)) by lia.
Qed.

Lemma pathOf_app (steps : list RouteStep) :
  forall more values rest,
    List.length values = countParameters steps ->
    pathOf (steps ++ more)%list (values ++ rest)%list
    = pathOf steps values ++ pathOf more rest.
Proof.
  unfold countParameters.
  induction steps as [|[seg|name|name] steps IH]; intros more values rest Hlen;
    simpl in Hlen.
  - now destruct values.
  - simpl. now rewrite IH, !append_assoc.
  - destruct values as [|v values]; [discriminate|].
    simpl. unfold restArgs. simpl. rewrite IH by (simpl in Hlen; lia).
    now rewrite !append_assoc.
  - destruct values as [|v values]; [discriminate|].
    simpl. unfold restArgs. simpl. rewrite IH by (simpl in Hlen; lia).
    now rewrite !append_assoc.
Qed.

Lemma Skips_ext (n : nat) :
  forall path path' f,
    (forall values, List.length values = n ->
                    forallb isDefined values = true ->
                    path values = path' values) ->
    Skips n path f -> Skips n path' f.
Proof.
  induction n as [|n IH]; intros path path' f Heq H; simpl in *.
  - destruct H as [g [-> Hg]]. exists g. split; [reflexivity|].
    now rewrite <- (Heq [] eq_refl eq_refl).
  - destruct H as [g [-> Hg]]. exists g. split; [reflexivity|].
    intros arg Harg. apply (IH (fun values => path (arg :: values))).
    + intros values Hlen Hall. apply Heq; simpl; [now rewrite Hlen|].
      now rewrite Harg.
    + now apply Hg.
Qed.

Lemma Skips_calls (n : nat) :
  forall path f values,
    Skips n path f ->
    List.length values = n ->
    forallb isDefined values = true ->
    calls f (values ++ [VUndefined])%list = Some (FStr (path values)).
Proof.
  induction n as [|n IH]; intros path f values H Hlen Hall.
  - destruct values; [|discriminate]. destruct H as [g [-> Hg]].
    simpl. now rewrite Hg.
  - destruct values as [|v values]; [discriminate|].
    simpl in Hall. apply andb_prop in Hall as [Hv Hall].
    destruct H as [g [-> Hg]]. simpl.
    apply (IH (fun rest => path (v :: rest))); [now apply Hg| |exact Hall].
    simpl in Hlen. lia.
Qed.

Lemma makeFilledCurry_skips (n : nat) :
  forall path f, Fills n path f -> Skips n path (makeFilledCurry f).
Proof.
  induction n as [|n IH]; intros path f H.
  - simpl in H. subst f.
    exists (fun arg => if isDefined arg
                       then FStr (path [] ++ "/" ++ ToString arg)
                       else FStr (path [])).
    split; reflexivity.
  - destruct H as [g [-> Hg]].
    exists (fun arg => if isDefined arg then makeFilledCurry (g arg) else FFun g).
    split; [reflexivity|].
    intros arg Harg. cbv beta. rewrite Harg.
    apply (IH (fun values => path (arg :: values))). now apply Hg.
Qed.

Lemma addSegment_skips (seg : string) (route : ITypedRoute)
      (path : list JsValue -> string) :
  Skips 0 path (filled route) ->
  Skips 0 (fun values => path values ++ "/" ++ seg) (filled (addSegment seg route)).
Proof.
  intros [g [Hf Hg]]. cbn [addSegment filled]. rewrite Hf.
  eexists. split; [reflexivity|]. cbv beta. now rewrite Hg.
Qed.

Lemma compose_segments_skips (post : list RouteStep) :
  forall route n path,
    countParameters post = 0 ->
    segmentsEarly (S n) post = true ->
    Skips n path (filled route) ->
    Skips n (fun values => path values ++ pathOf post []) (filled (compose post route)).
Proof.
  unfold countParameters, compose.
  induction post as [|[seg|name|name] post IH]; intros route n path Hcount Hearly H;
    simpl in Hcount; try discriminate.
  - simpl. apply (Skips_ext n path); [|exact H].
    intros values _ _. now rewrite append_empty_r.
  - simpl in Hearly. apply andb_prop in Hearly as [Hn Hearly].
    apply Nat.leb_le in Hn. assert (n = 0) by lia. subst n.
    simpl fold_left.
    eapply Skips_ext; [|apply IH; [exact Hcount|exact Hearly|
                                   apply (addSegment_skips seg), H]].
    intros values _ _. simpl. now rewrite !append_assoc.
Qed.

(** C5, as amended.  A route contains a required parameter, added after the
    operations [pre] and followed by the operations [post]; [undefined] is
    supplied for it.  No operation detects or rejects this.  Whatever the
    route, [fillAll] (given the values in reverse order) prints the literal
    [/undefined] at the parameter's place.  The curried filler's step for
    the parameter is the call made after the earlier parameters received
    values other than [undefined]: when no parameter is added after it, and
    every segment is added while at most one parameter is pending, that
    call given [undefined] returns a string, the path with the parameter's
    segment skipped. *)
Theorem required_parameter_undefined_at_its_step (pre post : list RouteStep)
        (name : string) (before after : list JsValue) :
  List.length before = countParameters pre ->
  List.length after = countParameters post ->
  fillAll (compose (pre ++ ParameterStep name :: post)%list createRoute)
          (rev (before ++ VUndefined :: after)%list)
  = (pathOf pre before ++ "/undefined") ++ pathOf post after
  /\ (countParameters post = 0 ->
      segmentsEarly 0 (pre ++ ParameterStep name :: post)%list = true ->
      forallb isDefined before = true ->
      calls (filled (compose (pre ++ ParameterStep name :: post)%list createRoute))
            (before ++ [VUndefined])%list
      = Some (FStr (pathOf pre before ++ pathOf post []))).
Proof.
  intros Hbefore Hafter. split.
  - rewrite <- (app_nil_r (rev _)). rewrite fillAll_compose.
    + simpl fillAll. rewrite (pathOf_app pre) by exact Hbefore.
      simpl. now rewrite !append_assoc.
    + rewrite length_app, countParameters_app. simpl.
      unfold countParameters in *. simpl. lia.
  - intros Hpost Hearly Hall.
    destruct (segmentsEarly_app pre 0 _ Hearly) as [Hpre Hrest].
    simpl in Hrest.
    rewrite compose_app.
    change (compose (ParameterStep name :: post) (compose pre createRoute))
      with (compose post (addParameter name (compose pre createRoute))).
    apply (Skips_calls (countParameters pre)
                       (fun values => pathOf pre values ++ pathOf post []));
      [|exact Hbefore|exact Hall].
    apply compose_segments_skips; [exact Hpost|exact Hrest|].
    apply makeFilledCurry_skips.
    apply (compose_fills pre createRoute 0 (fun _ => "")); [reflexivity|exact Hpre].
Qed.


(** C10 (defect in [addSegment]).  A value other than [undefined] given for
    an optional parameter is meant to be interpolated by both fillers.  On
    the route empty -> a -> optional b -> segment [s], [fillAll(null, 1)]
    does so, but the curried filler cannot take the value: [filled(1)] is
    already a string, the segment having turned the pending function into
    text, and [filled(1)(null)] fails. *)
Theorem optional_value_after_segment_is_not_taken :
  fillAll route_a_opt_b_s [VNull; VNumber 1] = "/1/null/s"
  /\ call (filled route_a_opt_b_s) (VNumber 1)
     = Some (FStr (functionToString
                     (fun arg => if isDefined arg
                                 then FStr ("/1" ++ "/" ++ ToString arg)
                                 else FStr "/1")
                   ++ "/s"))
  /\ calls (filled route_a_opt_b_s) [VNumber 1; VNull] = None.
Proof.
  repeat split.
Qed.

(** ** Route objects: what an operation leaves alone *)

Lemma wellFormedFrom_nth (store : ObjectStore) :
  forall index i obj,
    wellFormedFrom index store = true ->
    nth_error store i = Some obj ->
    objectBelow (index + i) obj = true.
Proof.
  induction store as [|first store IH]; intros index i obj Hwf Hnth.
  - now destruct i.
  - simpl in Hwf. apply andb_prop in Hwf as [Hfirst Hwf].
    destruct i as [|i]; simpl in Hnth.
    + injection Hnth as <-. now rewrite Nat.add_0_r.
    + replace (index + S i) with (S index + i) by lia. now apply IH.
Qed.

Lemma wellFormed_nth (store : ObjectStore) (i : nat) (obj : RouteObject) :
  wellFormed store = true ->
  nth_error store i = Some obj ->
  fillAllBelow i (objFillAll obj) = true /\ valueBelow i (objFilled obj) = true.
Proof.
  intros Hwf Hnth. apply andb_prop.
  apply (wellFormedFrom_nth store 0 i obj Hwf Hnth).
Qed.

Lemma wellFormedFrom_snoc (store : ObjectStore) (obj : RouteObject) :
  forall index,
    wellFormedFrom index (store ++ [obj])%list
    = wellFormedFrom index store && objectBelow (index + List.length store) obj.
Proof.
  induction store as [|first store IH]; intros index; simpl.
  - now rewrite Nat.add_0_r, andb_true_r.
  - rewrite IH, andb_assoc. now replace (S index + List.length store)
      with (index + S (List.length store)) by lia.
Qed.

Lemma closureBelow_le (fn : FilledClosure) (n m : nat) :
  n <= m -> closureBelow n fn = true -> closureBelow m fn = true.
Proof.
  intros Hle. induction fn as [s|inner IH|route seg]; simpl; auto.
  intros H. apply Nat.ltb_lt in H. apply Nat.ltb_lt. lia.
Qed.

Lemma valueBelow_le (v : FilledValue) (n m : nat) :
  n <= m -> valueBelow n v = true -> valueBelow m v = true.
Proof.
  destruct v; simpl; [reflexivity|]. apply closureBelow_le.
Qed.

Lemma valueBelow_makeFilledCurryObject (n : nat) (v : FilledValue) :
  valueBelow n v = true -> valueBelow n (makeFilledCurryObject v) = true.
Proof.
  now destruct v.
Qed.

(** Reading [fillAll] through the store: the result depends neither on the
    objects allocated later nor on the fuel, once there is enough of it, and
    there always is a result. *)
Lemma callRouteFillAll_stable (store extra : ObjectStore) :
  wellFormed store = true ->
  forall route,
    route < List.length store ->
    forall fuel fuel' args,
      route < fuel -> route < fuel' ->
      callRouteFillAll fuel (store ++ extra)%list route args
      = callRouteFillAll fuel' store route args.
Proof.
  intros Hwf route.
  induction route as [route IH] using lt_wf_ind.
  intros Hroute [|fuel] [|fuel'] args Hfuel Hfuel'; try lia.
  simpl. rewrite nth_error_app1 by exact Hroute.
  destruct (nth_error store route) as [obj|] eqn:Hobj; [|reflexivity].
  destruct (wellFormed_nth store route obj Hwf Hobj) as [Hbelow _].
  destruct (objFillAll obj) as [|inner seg|inner|inner]; simpl in *;
    try reflexivity; apply Nat.ltb_lt in Hbelow;
    rewrite ?(IH inner Hbelow ltac:(lia) fuel fuel') by lia; reflexivity.
Qed.

Lemma callRouteFillAll_total (store : ObjectStore) :
  wellFormed store = true ->
  forall route,
    route < List.length store ->
    forall fuel args,
      route < fuel ->
      exists path, callRouteFillAll fuel store route args = Some path.
Proof.
  intros Hwf route.
  induction route as [route IH] using lt_wf_ind.
  intros Hroute [|fuel] args Hfuel; try lia.
  simpl.
  destruct (nth_error store route) as [obj|] eqn:Hobj;
    [|apply nth_error_None in Hobj; lia].
  destruct (wellFormed_nth store route obj Hwf Hobj) as [Hbelow _].
  destruct (objFillAll obj) as [|inner seg|inner|inner]; simpl in *.
  - eexists. reflexivity.
  - apply Nat.ltb_lt in Hbelow.
    destruct (IH inner Hbelow ltac:(lia) fuel args ltac:(lia)) as [path ->].
    eexists. reflexivity.
  - apply Nat.ltb_lt in Hbelow.
    destruct (IH inner Hbelow ltac:(lia) fuel (restArgs args) ltac:(lia)) as [path ->].
    eexists. reflexivity.
  - apply Nat.ltb_lt in Hbelow.
    destruct (IH inner Hbelow ltac:(lia) fuel (restArgs args) ltac:(lia)) as [path Hpath].
    rewrite Hpath. destruct (isDefined (firstArg args)); eexists; reflexivity.
Qed.

Lemma callClosure_stable (n : nat) (fn : FilledClosure)
      (callRoute callRoute' : Ref -> JsValue -> option FilledValue) :
  closureBelow n fn = true ->
  (forall route arg, route < n -> callRoute route arg = callRoute' route arg) ->
  forall arg, callClosure callRoute fn arg = callClosure callRoute' fn arg.
Proof.
  intros Hbelow Hsame arg.
  induction fn as [s|inner IH|route seg]; simpl in *.
  - reflexivity.
  - now rewrite IH.
  - apply Nat.ltb_lt in Hbelow. now rewrite Hsame.
Qed.

Lemma callClosure_below (n : nat) (fn : FilledClosure)
      (callRoute : Ref -> JsValue -> option FilledValue) (arg : JsValue) :
  closureBelow n fn = true ->
  forall v, callClosure callRoute fn arg = Some v -> valueBelow n v = true.
Proof.
  intros Hbelow.
  induction fn as [s|inner IH|route seg]; simpl in *; intros v Hv.
  - injection Hv as <-. now destruct (isDefined arg).
  - destruct (isDefined arg).
    + destruct (callClosure callRoute inner arg) as [nested|]; [|discriminate].
      injection Hv as <-. apply valueBelow_makeFilledCurryObject. now apply IH.
    + injection Hv as <-. exact Hbelow.
  - destruct (callRoute route arg); [|discriminate]. now injection Hv as <-.
Qed.

Lemma callRouteFilled_stable (store extra : ObjectStore) :
  wellFormed store = true ->
  forall route,
    route < List.length store ->
    forall fuel fuel' arg,
      route < fuel -> route < fuel' ->
      callRouteFilled fuel (store ++ extra)%list route arg
      = callRouteFilled fuel' store route arg.
Proof.
  intros Hwf route.
  induction route as [route IH] using lt_wf_ind.
  intros Hroute [|fuel] [|fuel'] arg Hfuel Hfuel'; try lia.
  simpl. rewrite nth_error_app1 by exact Hroute.
  destruct (nth_error store route) as [obj|] eqn:Hobj; [|reflexivity].
  destruct (wellFormed_nth store route obj Hwf Hobj) as [_ Hbelow].
  destruct (objFilled obj) as [s|fn]; [reflexivity|].
  apply (callClosure_stable route); [exact Hbelow|].
  intros inner arg' Hinner. apply IH; lia.
Qed.

Lemma filledCalls_stable (store extra : ObjectStore) (n : nat) :
  wellFormed store = true ->
  n <= List.length store ->
  forall args v fuel fuel',
    valueBelow n v = true ->
    n <= fuel -> n <= fuel' ->
    filledCalls fuel (store ++ extra)%list v args = filledCalls fuel' store v args.
Proof.
  intros Hwf Hn.
  induction args as [|arg args IH]; intros v fuel fuel' Hbelow Hfuel Hfuel';
    [reflexivity|].
  simpl. destruct v as [s|fn]; [reflexivity|].
  rewrite (callClosure_stable n fn (callRouteFilled fuel (store ++ extra)%list)
                              (callRouteFilled fuel' store) Hbelow).
  - destruct (callClosure (callRouteFilled fuel' store) fn arg) as [v'|] eqn:Hcall;
      [|reflexivity].
    apply IH; try assumption.
    exact (callClosure_below n fn _ arg Hbelow v' Hcall).
  - intros route arg' Hroute.
    apply (callRouteFilled_stable store extra Hwf); lia.
Qed.

Lemma applyStepObject_allocates (step : RouteStep) (route result : Ref)
      (store store' : ObjectStore) :
  applyStepObject step route store = Some (result, store') ->
  exists obj created,
    nth_error store route = Some obj
    /\ result = List.length store
    /\ store' = (store ++ [created])%list
    /\ objFillAll created
       = match step with
         | SegmentStep segment => FillAllOfSegment route segment
         | ParameterStep _ => FillAllOfParameter route
         | OptionalParameterStep _ => FillAllOfOptional route
         end
    /\ objFilled created
       = match step with
         | SegmentStep segment =>
             match objFilled obj with
             | FilledString s => FilledString (s ++ "/" ++ segment)
             | FilledFunction _ => FilledFunction (FilledOfSegment route segment)
             end
         | _ => makeFilledCurryObject (objFilled obj)
         end.
Proof.
  destruct step as [seg|name|name]; simpl;
    unfold addSegmentObject, addParameterObject, addOptionalParameterObject, allocObject;
    destruct (nth_error store route) as [obj|]; try discriminate;
    intros H; injection H as <- <-; eexists; eexists; repeat split.
Qed.

Lemma applyStepObject_wellFormed (step : RouteStep) (route result : Ref)
      (store store' : ObjectStore) :
  wellFormed store = true ->
  applyStepObject step route store = Some (result, store') ->
  wellFormed store' = true.
Proof.
  intros Hwf Hstep.
  destruct (applyStepObject_allocates _ _ _ _ _ Hstep)
    as (obj & created & Hobj & -> & -> & HfillAll & Hfilled).
  assert (Hroute : route < List.length store)
    by (apply nth_error_Some; congruence).
  destruct (wellFormed_nth store route obj Hwf Hobj) as [_ Hbelow].
  apply (valueBelow_le _ route (List.length store)) in Hbelow; [|lia].
  unfold wellFormed in *. rewrite wellFormedFrom_snoc, Hwf. simpl.
  unfold objectBelow. rewrite HfillAll, Hfilled.
  apply Nat.ltb_lt in Hroute.
  destruct step as [seg|name|name]; simpl; rewrite Hroute; simpl.
  - destruct (objFilled obj); simpl; [reflexivity|exact Hroute].
  - now apply valueBelow_makeFilledCurryObject.
  - now apply valueBelow_makeFilledCurryObject.
Qed.

Lemma createRouteObject_wellFormed (store : ObjectStore) :
  wellFormed store = true -> wellFormed (snd (createRouteObject store)) = true.
Proof.
  intros Hwf. unfold wellFormed in *. simpl. now rewrite wellFormedFrom_snoc, Hwf.
Qed.

(** C8.  In a store made by the library, an append operation allocates its
    result and changes nothing else.  The object it was given is afterwards
    the same (same [template], same fields), and what its functions return,
    which they compute by reading the store, is the same as before: [fillAll]
    returns the same string on every argument list, and the chain of calls
    of [filled] returns the same on every argument list, however much fuel
    the evaluation is given.  Every other object is kept and the store is
    still one made by the library. *)
Theorem operation_leaves_its_input_as_it_was (step : RouteStep) (route result : Ref)
        (store store' : ObjectStore) :
  wellFormed store = true ->
  applyStepObject step route store = Some (result, store') ->
  exists obj,
    nth_error store route = Some obj
    /\ nth_error store' route = Some obj
    /\ result <> route
    /\ (forall fuel args,
          List.length store <= fuel ->
          exists path,
            callRouteFillAll (List.length store) store route args = Some path
            /\ callRouteFillAll fuel store' route args = Some path)
    /\ (forall fuel args,
          List.length store <= fuel ->
          filledCalls fuel store' (objFilled obj) args
          = filledCalls (List.length store) store (objFilled obj) args)
    /\ (forall r other, nth_error store r = Some other -> nth_error store' r = Some other)
    /\ wellFormed store' = true.
Proof.
  intros Hwf Hstep.
  pose proof (applyStepObject_wellFormed _ _ _ _ _ Hwf Hstep) as Hwf'.
  destruct (applyStepObject_allocates _ _ _ _ _ Hstep)
    as (obj & created & Hobj & -> & -> & _ & _).
  assert (Hroute : route < List.length store)
    by (apply nth_error_Some; congruence).
  exists obj. repeat split.
  - exact Hobj.
  - rewrite nth_error_app1 by exact Hroute. exact Hobj.
  - lia.
  - intros fuel args Hfuel.
    destruct (callRouteFillAll_total store Hwf route Hroute (List.length store) args Hroute)
      as [path Hpath].
    exists path. split; [exact Hpath|].
    rewrite <- Hpath. apply callRouteFillAll_stable; try assumption; lia.
  - intros fuel args Hfuel.
    destruct (wellFormed_nth store route obj Hwf Hobj) as [_ Hbelow].
    apply (filledCalls_stable store [created] route); try assumption; lia.
  - intros r other Hr. rewrite nth_error_app1; [exact Hr|].
    apply nth_error_Some. congruence.
  - exact Hwf'.
Qed.

(** ** Route objects and route values *)

Lemma applyStepObject_agrees (step : RouteStep) (route : Ref) (store : ObjectStore)
      (obj : RouteObject) (value : ITypedRoute) :
  wellFormed store = true ->
  nth_error store route = Some obj ->
  objTemplate obj = template value ->
  (forall fuel args, route < fuel ->
                     callRouteFillAll fuel store route args = Some (fillAll value args)) ->
  exists created,
    applyStepObject step route store
    = Some (List.length store, (store ++ [created])%list)
    /\ wellFormed (store ++ [created])%list = true
    /\ objTemplate created = template (applyStep step value)
    /\ (forall fuel args,
          List.length store < fuel ->
          callRouteFillAll fuel (store ++ [created])%list (List.length store) args
          = Some (fillAll (applyStep step value) args)).
Proof.
  intros Hwf Hobj Htemplate HfillAll.
  assert (Hroute : route < List.length store)
    by (apply nth_error_Some; congruence).
  destruct (applyStepObject step route store) as [[result store']|] eqn:Hstep.
  - pose proof (applyStepObject_wellFormed _ _ _ _ _ Hwf Hstep) as Hwf'.
    destruct (applyStepObject_allocates _ _ _ _ _ Hstep)
      as (obj' & created & Hobj' & -> & -> & Hfn & _).
    exists created. repeat split; try assumption.
    + revert Hstep. rewrite Hobj in Hobj'. injection Hobj' as <-.
      destruct step; simpl;
        unfold addSegmentObject, addParameterObject, addOptionalParameterObject,
               allocObject;
        rewrite Hobj; intros H; injection H as H;
        apply app_inv_head in H; injection H as <-; simpl; now rewrite Htemplate.
    + intros [|fuel] args Hfuel; [lia|]. simpl.
      rewrite nth_error_app2 by lia. rewrite Nat.sub_diag. simpl. rewrite Hfn.
      assert (Hinner : forall args',
                 callRouteFillAll fuel (store ++ [created])%list route args'
                 = Some (fillAll value args')).
      { intros args'.
        rewrite (callRouteFillAll_stable store [created] Hwf route Hroute fuel fuel)
          by lia.
        apply HfillAll. lia. }
      destruct step; simpl; rewrite !Hinner; try reflexivity.
      now destruct (isDefined (firstArg args)).
  - exfalso. revert Hstep.
    destruct step; simpl;
      unfold addSegmentObject, addParameterObject, addOptionalParameterObject;
      rewrite Hobj; discriminate.
Qed.

Lemma composeObject_agrees (steps : list RouteStep) :
  forall route store obj value,
    wellFormed store = true ->
    nth_error store route = Some obj ->
    objTemplate obj = template value ->
    (forall fuel args, route < fuel ->
                       callRouteFillAll fuel store route args = Some (fillAll value args)) ->
    exists result store' obj',
      composeObject steps route store = Some (result, store')
      /\ wellFormed store' = true
      /\ nth_error store' result = Some obj'
      /\ objTemplate obj' = template (compose steps value)
      /\ (forall fuel args,
            result < fuel ->
            callRouteFillAll fuel store' result args
            = Some (fillAll (compose steps value) args)).
Proof.
  induction steps as [|step steps IH]; intros route store obj value Hwf Hobj Ht Hf.
  - exists route, store, obj. repeat split; assumption.
  - destruct (applyStepObject_agrees step route store obj value Hwf Hobj Ht Hf)
      as (created & Hstep & Hwf' & Ht' & Hf').
    simpl. rewrite Hstep.
    apply (IH (List.length store) (store ++ [created])%list created
              (applyStep step value)); try assumption.
    rewrite nth_error_app2 by lia. now rewrite Nat.sub_diag.
Qed.

(** X17.  The route objects agree with the route values: any sequence of
    append operations applied in the store to a freshly created empty route
    succeeds, and the object it ends on has the template of the route value
    that the same operations give from [createRoute()], and its [fillAll],
    read through the store, returns on every argument list what the route
    value's [fillAll] returns. *)
Theorem route_objects_agree_with_route_values (steps : list RouteStep)
        (store : ObjectStore) :
  wellFormed store = true ->
  exists result store' obj,
    composeObject steps (fst (createRouteObject store)) (snd (createRouteObject store))
    = Some (result, store')
    /\ wellFormed store' = true
    /\ nth_error store' result = Some obj
    /\ objTemplate obj = template (compose steps createRoute)
    /\ (forall args,
          callRouteFillAll (List.length store') store' result args
          = Some (fillAll (compose steps createRoute) args)).
Proof.
  intros Hwf. simpl.
  destruct (composeObject_agrees steps (List.length store)
              (store ++ [{| objTemplate := ""; objParameters := VUndefined;
                            objFillAll := FillAllOfCreate;
                            objFilled := FilledString "" |}])%list
              {| objTemplate := ""; objParameters := VUndefined;
                 objFillAll := FillAllOfCreate; objFilled := FilledString "" |}
              createRoute)
    as (result & store' & obj & Hrun & Hwf' & Hobj & Ht & Hf).
  - unfold wellFormed in *. now rewrite wellFormedFrom_snoc, Hwf.
  - rewrite nth_error_app2 by lia. now rewrite Nat.sub_diag.
  - reflexivity.
  - intros [|fuel] args Hfuel; [lia|]. simpl.
    rewrite nth_error_app2 by lia. now rewrite Nat.sub_diag.
  - exists result, store', obj. repeat split; try assumption.
    intros args. apply Hf. apply nth_error_Some. congruence.
Qed.

Lemma Represents_below (store : ObjectStore) (t : FilledType) (v : FilledValue) :
  Represents store t v -> valueBelow (List.length store) v = true.
Proof.
  destruct t; simpl.
  - now intros ->.
  - now intros (fn & -> & Hbelow & _).
Qed.

Lemma callClosure_extended (store extra : ObjectStore) (fn : FilledClosure) (arg : JsValue) :
  wellFormed store = true ->
  closureBelow (List.length store) fn = true ->
  callClosure (callRouteFilled (List.length (store ++ extra)%list) (store ++ extra)%list)
              fn arg
  = callClosure (callRouteFilled (List.length store) store) fn arg.
Proof.
  intros Hwf Hbelow.
  apply (callClosure_stable (List.length store)); [exact Hbelow|].
  intros route arg' Hroute.
  apply callRouteFilled_stable; try assumption. rewrite length_app. lia.
Qed.

Lemma Represents_extended (store extra : ObjectStore) (t : FilledType) :
  wellFormed store = true ->
  forall v, Represents store t v -> Represents (store ++ extra)%list t v.
Proof.
  intros Hwf. induction t as [s|g IH]; intros v H; simpl in *; [exact H|].
  destruct H as (fn & -> & Hbelow & Hcall).
  exists fn. repeat split.
  - apply (closureBelow_le fn (List.length store)); [|exact Hbelow].
    rewrite length_app. lia.
  - intros arg. destruct (Hcall arg) as (v' & Hv' & Hrep).
    exists v'. split; [|now apply IH].
    now rewrite callClosure_extended.
Qed.

Lemma Represents_makeFilledCurry (store : ObjectStore) (t : FilledType) :
  forall v,
    Represents store t v ->
    Represents store (makeFilledCurry t) (makeFilledCurryObject v).
Proof.
  induction t as [s|g IH]; intros v H; simpl in H.
  - subst v. simpl. exists (CurryOfString s). repeat split.
    intros arg. eexists. split; [reflexivity|]. now destruct (isDefined arg).
  - destruct H as (fn & -> & Hbelow & Hcall).
    simpl. exists (CurryOfFunction fn). repeat split; [exact Hbelow|].
    intros arg. simpl. destruct (isDefined arg) eqn:Harg.
    + destruct (Hcall arg) as (v' & -> & Hrep).
      eexists. split; [reflexivity|]. now apply IH.
    + eexists. split; [reflexivity|].
      simpl. exists fn. repeat split; assumption.
Qed.

Lemma Represents_calls (store : ObjectStore) (args : list JsValue) :
  forall t v,
    Represents store t v ->
    representsResult store (calls t args) (filledCalls (List.length store) store v args).
Proof.
  induction args as [|arg args IH]; intros t v H; [exact H|].
  destruct t as [s|g]; simpl in H.
  - subst v. exact I.
  - destruct H as (fn & -> & _ & Hcall).
    simpl. destruct (Hcall arg) as (v' & -> & Hrep). now apply IH.
Qed.

Section Texts.

(** The two models print the same text for a function of the route values
    and the closure that represents it. *)
Hypothesis texts_agree :
  forall store g fn,
    Represents store (FFun g) (FilledFunction fn) ->
    closureToString fn = functionToString g.

Lemma Represents_text (store : ObjectStore) (t : FilledType) (v : FilledValue) :
  Represents store t v -> valueToString v = filledToString t.
Proof.
  destruct t as [s|g]; intros H.
  - simpl in H. now subst v.
  - pose proof H as (fn & -> & _). simpl. now apply (texts_agree store).
Qed.

Lemma applyStepObject_represents (step : RouteStep) (route : Ref) (store : ObjectStore)
      (obj created : RouteObject) (value : ITypedRoute) :
  wellFormed store = true ->
  nth_error store route = Some obj ->
  Represents store (filled value) (objFilled obj) ->
  applyStepObject step route store
  = Some (List.length store, (store ++ [created])%list) ->
  Represents (store ++ [created])%list (filled (applyStep step value)) (objFilled created).
Proof.
  intros Hwf Hobj Hrep Hstep.
  assert (Hroute : route < List.length store)
    by (apply nth_error_Some; congruence).
  destruct (applyStepObject_allocates _ _ _ _ _ Hstep)
    as (obj' & created' & Hobj' & _ & Hstore & _ & Hfilled).
  apply app_inv_head in Hstore. injection Hstore as <-.
  rewrite Hobj in Hobj'. injection Hobj' as <-.
  rewrite Hfilled.
  destruct step as [seg|name|name]; simpl.
  - destruct (filled value) as [s|g] eqn:Hvalue; simpl in Hrep.
    + rewrite Hrep. reflexivity.
    + destruct Hrep as (fn & Hfn & Hbelow & Hcall). rewrite Hfn.
      exists (FilledOfSegment route seg). repeat split.
      * simpl. apply Nat.ltb_lt. rewrite length_app. lia.
      * intros arg. simpl.
        rewrite length_app, Nat.add_comm. simpl.
        rewrite nth_error_app1 by exact Hroute. rewrite Hobj, Hfn.
        rewrite (callClosure_stable (List.length store) fn _
                   (callRouteFilled (List.length store) store) Hbelow).
        -- destruct (Hcall arg) as (v' & -> & Hv').
           eexists. split; [reflexivity|].
           simpl. now rewrite (Represents_text store (g arg) v' Hv').
        -- intros inner arg' Hinner.
           apply callRouteFilled_stable; try assumption; lia.
  - apply Represents_makeFilledCurry. now apply Represents_extended.
  - apply Represents_makeFilledCurry. now apply Represents_extended.
Qed.

Lemma composeObject_represents (steps : list RouteStep) :
  forall route store obj value,
    wellFormed store = true ->
    nth_error store route = Some obj ->
    Represents store (filled value) (objFilled obj) ->
    exists result store' obj',
      composeObject steps route store = Some (result, store')
      /\ nth_error store' result = Some obj'
      /\ Represents store' (filled (compose steps value)) (objFilled obj').
Proof.
  induction steps as [|step steps IH]; intros route store obj value Hwf Hobj Hrep.
  - exists route, store, obj. repeat split; assumption.
  - destruct (applyStepObject step route store) as [[result store']|] eqn:Hstep.
    + pose proof (applyStepObject_wellFormed _ _ _ _ _ Hwf Hstep) as Hwf'.
      destruct (applyStepObject_allocates _ _ _ _ _ Hstep)
        as (obj' & created & _ & -> & -> & _ & _).
      simpl. rewrite Hstep.
      apply (IH (List.length store) (store ++ [created])%list created
                (applyStep step value)); try assumption.
      * rewrite nth_error_app2 by lia. now rewrite Nat.sub_diag.
      * now apply (applyStepObject_represents step route store obj created value).
    + exfalso. revert Hstep.
      destruct step; simpl;
        unfold addSegmentObject, addParameterObject, addOptionalParameterObject;
        rewrite Hobj; discriminate.
Qed.

(** X18.  When the two models print the same text for a function, the
    curried fillers agree as well: after any sequence of append operations
    applied in the store to a freshly created empty route, every chain of
    calls of the object's [filled] fails exactly when the chain of calls of
    the route value's [filled] fails, and otherwise returns the same string
    or a function that behaves as the route value's. *)
Theorem filled_of_route_objects_agrees (steps : list RouteStep) (store : ObjectStore)
        (args : list JsValue) :
  wellFormed store = true ->
  exists result store' obj,
    composeObject steps (fst (createRouteObject store)) (snd (createRouteObject store))
    = Some (result, store')
    /\ nth_error store' result = Some obj
    /\ representsResult store'
         (calls (filled (compose steps createRoute)) args)
         (filledCalls (List.length store') store' (objFilled obj) args).
Proof.
  intros Hwf. simpl.
  destruct (composeObject_represents steps (List.length store)
              (store ++ [{| objTemplate := ""; objParameters := VUndefined;
                            objFillAll := FillAllOfCreate;
                            objFilled := FilledString "" |}])%list
              {| objTemplate := ""; objParameters := VUndefined;
                 objFillAll := FillAllOfCreate; objFilled := FilledString "" |}
              createRoute)
    as (result & store' & obj & Hrun & Hobj & Hrep).
  - unfold wellFormed in *. now rewrite wellFormedFrom_snoc, Hwf.
  - rewrite nth_error_app2 by lia. now rewrite Nat.sub_diag.
  - reflexivity.
  - exists result, store', obj. repeat split; try assumption.
    now apply Represents_calls.
Qed.

End Texts.

End Runtime.

(** * Closed instances *)

(** C5, as stated, fails.  On the route empty -> a -> segment [s] -> b the
    first curried call supplies [a].  Given [undefined] it does not produce a
    string but the pending function of the route without [b]; and the chain
    completed with [2] does not give the path with [a]'s segment skipped,
    ['/s/2'], whatever the host prints for functions (it gives ['/2/s']). *)
Lemma required_undefined_counterexample :
  ~ exists host,
      (exists s, call (filled (route_a_s_b host)) VUndefined = Some (FStr s))
      \/ calls (filled (route_a_s_b host)) [VUndefined; VNumber 2] = Some (FStr "/s/2").
Proof.
  intros [host [[s H] | H]]; simpl in H; discriminate H.
Qed.

(** What the curried filler of that route returns. *)
Example required_undefined_shifts_values :
  calls (filled (route_a_s_b hostText)) [VUndefined; VNumber 2] = Some (FStr "/2/s")
  /\ calls (filled (route_a_s_b hostText)) [VNumber 1; VNumber 2] = Some (FStr "/1/s/2").
Proof. split; reflexivity. Qed.

(** X1 on the sequence [id], segment [edit], optional [tab]. *)
Lemma step_count_when_segments_early_witness :
  segmentsEarly 0 [ParameterStep "id"; SegmentStep "edit"; OptionalParameterStep "tab"] = true
  /\ CurrySteps 2
       (filled (compose hostText
                        [ParameterStep "id"; SegmentStep "edit"; OptionalParameterStep "tab"]
                        createRoute)).
Proof.
  split; [reflexivity|].
  apply (step_count_when_segments_early hostText
           [ParameterStep "id"; SegmentStep "edit"; OptionalParameterStep "tab"]).
  reflexivity.
Defined.

(** X2 on [/users] extended by [a], optional [b] and [c]. *)
Lemma parameters_chain_filled_witness :
  filled (addSegment hostText "users" createRoute) = FStr "/users"
  /\ calls (filled (compose hostText
                            [ParameterStep "a"; OptionalParameterStep "b"; ParameterStep "c"]
                            (addSegment hostText "users" createRoute)))
           [VNumber 1; VUndefined; VString "x"]
     = Some (FStr "/users/1/x").
Proof.
  split; [reflexivity|].
  apply (parameters_chain_filled hostText
           [ParameterStep "a"; OptionalParameterStep "b"; ParameterStep "c"]
           (addSegment hostText "users" createRoute) "/users"
           [VNumber 1; VUndefined; VString "x"]); reflexivity.
Defined.

(** X3 on the route empty -> a -> b. *)
Lemma fillAll_reverse_order_witness :
  List.length [VNumber 1; VNumber 2] = countParameters [ParameterStep "a"; ParameterStep "b"]
  /\ fillAll (compose hostText [ParameterStep "a"; ParameterStep "b"] createRoute)
             [VNumber 2; VNumber 1]
     = "/1/2".
Proof.
  split; [reflexivity|].
  apply (fillAll_reverse_order hostText [ParameterStep "a"; ParameterStep "b"]
                               [VNumber 1; VNumber 2]).
  reflexivity.
Defined.

(** X4 on [/users/:id/posts/:page?] with the values 7 and 2. *)
Lemma fillers_agree_on_defined_values_witness :
  segmentsEarly 0 [SegmentStep "users"; ParameterStep "id"; SegmentStep "posts";
                   OptionalParameterStep "page"] = true
  /\ fillAll (compose hostText
                      [SegmentStep "users"; ParameterStep "id"; SegmentStep "posts";
                       OptionalParameterStep "page"] createRoute)
             [VNumber 2; VNumber 7]
     = "/users/7/posts/2"
  /\ calls (filled (compose hostText
                            [SegmentStep "users"; ParameterStep "id"; SegmentStep "posts";
                             OptionalParameterStep "page"] createRoute))
           [VNumber 7; VNumber 2]
     = Some (FStr "/users/7/posts/2").
Proof.
  split; [reflexivity|]. split; [reflexivity|].
  exact (fillers_agree_on_defined_values hostText
           [SegmentStep "users"; ParameterStep "id"; SegmentStep "posts";
            OptionalParameterStep "page"]
           [VNumber 7; VNumber 2] eq_refl eq_refl eq_refl).
Defined.

(** X5 on a builder constructed from the route [/api], then [parameter('id')]. *)
Lemma builder_extends_adopted_route_witness :
  List.length [VNumber 3] = countParameters [ParameterStep "id"]
  /\ build (chain hostText [ParameterStep "id"]
                           (newTypedRouteBuilder (Some (addSegment hostText "api" createRoute))))
     = compose hostText [ParameterStep "id"] (addSegment hostText "api" createRoute)
  /\ template (build
                 (chain hostText [ParameterStep "id"]
                        (newTypedRouteBuilder (Some (addSegment hostText "api" createRoute)))))
     = "/api/:id"
  /\ fillAll (build
                (chain hostText [ParameterStep "id"]
                       (newTypedRouteBuilder (Some (addSegment hostText "api" createRoute)))))
             [VNumber 3]
     = "/api/3".
Proof.
  split; [reflexivity|].
  exact (builder_extends_adopted_route hostText [ParameterStep "id"]
           (addSegment hostText "api" createRoute) [VNumber 3] [] eq_refl).
Defined.

(** X6 on the route empty -> a, called with two arguments. *)
Lemma fillAll_ignores_surplus_arguments_witness :
  List.length [VNumber 1] = countParameters [ParameterStep "a"]
  /\ fillAll (compose hostText [ParameterStep "a"] createRoute) [VNumber 1; VNumber 9]
     = fillAll (compose hostText [ParameterStep "a"] createRoute) [VNumber 1].
Proof.
  split; [reflexivity|].
  exact (fillAll_ignores_surplus_arguments hostText [ParameterStep "a"]
           [VNumber 1] [VNumber 9] eq_refl).
Defined.

(** X9 on [/users/:id]. *)
Lemma filled_placeholders_is_template_witness :
  segmentsEarly 0 [SegmentStep "users"; ParameterStep "id"] = true
  /\ calls (filled (compose hostText [SegmentStep "users"; ParameterStep "id"] createRoute))
           [VString ":id"]
     = Some (FStr "/users/:id").
Proof.
  split; [reflexivity|].
  exact (filled_placeholders_is_template hostText
           [SegmentStep "users"; ParameterStep "id"] eq_refl).
Defined.

(** X11 on the route with the single optional parameter [q]. *)
Lemma template_starts_with_slash_witness :
  [OptionalParameterStep "q"] <> []
  /\ exists rest,
       template (compose hostText [OptionalParameterStep "q"] createRoute) = String "/" rest.
Proof.
  split; [discriminate|].
  apply (template_starts_with_slash hostText [OptionalParameterStep "q"]).
  discriminate.
Defined.

(** X12 on empty -> optional a -> segment [x] -> b, with the value 2. *)
Lemma omitted_optional_before_segment_witness :
  filled createRoute = FStr ""
  /\ fillAll createRoute [] = ""
  /\ fillAll (addParameter "b" (addSegment hostText "x" (addOptionalParameter "a" createRoute)))
             [VNumber 2; VUndefined]
     = "/x/2"
  /\ calls (filled (addParameter "b"
                      (addSegment hostText "x" (addOptionalParameter "a" createRoute))))
           [VUndefined; VNumber 2]
     = Some (FStr "/2/x").
Proof.
  split; [reflexivity|]. split; [reflexivity|].
  exact (omitted_optional_before_segment hostText "a" "x" "" (ParameterStep "b")
           createRoute (VNumber 2) eq_refl eq_refl eq_refl eq_refl).
Defined.

(** X15 on the store with the empty route alone, for the segment [x]. *)
Lemma builder_adopts_route_in_store_witness :
  deref [createRoute] 0 = Some createRoute
  /\ buildRef (fst (newBuilderRef (Some 0) {| routeObjects := [createRoute];
                                              builderObjects := [] |}))
              (snd (newBuilderRef (Some 0) {| routeObjects := [createRoute];
                                              builderObjects := [] |}))
     = Some 0.
Proof.
  split; [reflexivity|].
  exact (proj1 (builder_adopts_route_in_store hostText [SegmentStep "x"]
                  {| routeObjects := [createRoute]; builderObjects := [] |}
                  0 createRoute eq_refl)).
Defined.

(** X16 on the route empty -> a -> b, called three times. *)
Lemma calls_by_number_of_values_witness :
  forallb isDefined [VNumber 1; VNumber 2; VNumber 3] = true
  /\ (curryDepth [ParameterStep "a"; ParameterStep "b"]
      <= countParameters [ParameterStep "a"; ParameterStep "b"])%nat
  /\ calls (filled (compose hostText [ParameterStep "a"; ParameterStep "b"] createRoute))
           [VNumber 1; VNumber 2; VNumber 3]
     = None.
Proof.
  split; [reflexivity|].
  exact (calls_by_number_of_values hostText [ParameterStep "a"; ParameterStep "b"]
           [VNumber 1; VNumber 2; VNumber 3] eq_refl).
Defined.

(** C5 on empty -> a -> segment [s] -> b, [undefined] supplied for [b]. *)
Lemma required_parameter_undefined_at_its_step_witness :
  List.length [VNumber 1] = countParameters [ParameterStep "a"; SegmentStep "s"]
  /\ List.length (@nil JsValue) = countParameters []
  /\ countParameters [] = 0
  /\ segmentsEarly 0 [ParameterStep "a"; SegmentStep "s"; ParameterStep "b"] = true
  /\ forallb isDefined [VNumber 1] = true
  /\ fillAll (route_a_s_b hostText) [VUndefined; VNumber 1] = "/1/s/undefined"
  /\ calls (filled (route_a_s_b hostText)) [VNumber 1; VUndefined] = Some (FStr "/1/s").
Proof.
  do 5 (split; [reflexivity|]).
  destruct (required_parameter_undefined_at_its_step hostText
              [ParameterStep "a"; SegmentStep "s"] [] "b" [VNumber 1] [] eq_refl eq_refl)
    as [Hflat Hcurried].
  split; [exact Hflat|exact (Hcurried eq_refl eq_refl eq_refl)].
Defined.


(** What the two fillers of that route return. *)
Example skipping_fills_the_skipped_place :
  fillAll (route_opt_a_s_b hostText) [VNumber 2; VUndefined] = "/s/2"
  /\ calls (filled (route_opt_a_s_b hostText)) [VUndefined; VNumber 2] = Some (FStr "/2/s").
Proof. split; reflexivity. Qed.


(** C8 on the store of empty -> a, for the segment [s]: the object of the
    route empty -> a, whose [filled] is pending, is read by the closures of
    the new object and is left as it was. *)
Lemma operation_leaves_its_input_as_it_was_witness :
  wellFormed store_a = true
  /\ applyStepObject (SegmentStep "s") 1 store_a = Some (2, store_a_s)
  /\ exists obj,
       nth_error store_a 1 = Some obj
       /\ nth_error store_a_s 1 = Some obj
       /\ 2 <> 1
       /\ (forall fuel args,
             List.length store_a <= fuel ->
             exists path,
               callRouteFillAll (List.length store_a) store_a 1 args = Some path
               /\ callRouteFillAll fuel store_a_s 1 args = Some path)
       /\ (forall fuel args,
             List.length store_a <= fuel ->
             filledCalls closureText fuel store_a_s (objFilled obj) args
             = filledCalls closureText (List.length store_a) store_a (objFilled obj) args)
       /\ (forall r other, nth_error store_a r = Some other ->
                           nth_error store_a_s r = Some other)
       /\ wellFormed store_a_s = true.
Proof.
  split; [reflexivity|]. split; [reflexivity|].
  exact (operation_leaves_its_input_as_it_was closureText (SegmentStep "s") 1 2
           store_a store_a_s eq_refl eq_refl).
Defined.

(** The route objects of empty -> a -> segment [s], read through the store. *)
Example route_objects_a_s :
  callRouteFillAll 3 store_a_s 2 [VNumber 42] = Some "/42/s"
  /\ filledCalls closureText 3 store_a_s
                 (FilledFunction (FilledOfSegment 1 "s")) [VNumber 42]
     = Some (FilledString "/42/s")
  /\ option_map objTemplate (nth_error store_a_s 2) = Some "/:a/s".
Proof. repeat split. Qed.

(** X17 on the empty store, for the operations [a] and segment [s]. *)
Lemma route_objects_agree_with_route_values_witness :
  wellFormed [] = true
  /\ exists result store' obj,
       composeObject [ParameterStep "a"; SegmentStep "s"]
                     (fst (createRouteObject [])) (snd (createRouteObject []))
       = Some (result, store')
       /\ wellFormed store' = true
       /\ nth_error store' result = Some obj
       /\ objTemplate obj
          = template (compose hostText [ParameterStep "a"; SegmentStep "s"] createRoute)
       /\ (forall args,
             callRouteFillAll (List.length store') store' result args
             = Some (fillAll (compose hostText [ParameterStep "a"; SegmentStep "s"]
                                      createRoute) args)).
Proof.
  split; [reflexivity|].
  exact (route_objects_agree_with_route_values hostText
           [ParameterStep "a"; SegmentStep "s"] [] eq_refl).
Defined.

(** X18 for the two hosts of the examples, which print the same text for
    every function, on the operations [a], [b] and segment [s] called once. *)
Lemma filled_of_route_objects_agrees_witness :
  (forall store g fn,
      Represents closureText store (FFun g) (FilledFunction fn) ->
      closureText fn = hostText g)
  /\ wellFormed [] = true
  /\ exists result store' obj,
       composeObject [ParameterStep "a"; ParameterStep "b"; SegmentStep "s"]
                     (fst (createRouteObject [])) (snd (createRouteObject []))
       = Some (result, store')
       /\ nth_error store' result = Some obj
       /\ representsResult closureText store'
            (calls (filled (compose hostText
                                    [ParameterStep "a"; ParameterStep "b"; SegmentStep "s"]
                                    createRoute))
                   [VNumber 1])
            (filledCalls closureText (List.length store') store' (objFilled obj)
                         [VNumber 1]).
Proof.
  split; [intros store g fn _; reflexivity|].
  split; [reflexivity|].
  exact (filled_of_route_objects_agrees hostText closureText
           (fun store g fn _ => eq_refl)
           [ParameterStep "a"; ParameterStep "b"; SegmentStep "s"] [] [VNumber 1]
           eq_refl).
Defined.
